(** * ENCODE MACS2 call-peak wrapper ([encode_task_macs2_chip.py])

    A shallow embedding of [parse_arguments], [macs2] and [main], and of the
    shell pipeline that [macs2] assembles:

      [LC_COLLATE=C sort -S ..M -k 8gr,8gr raw | awk '...' > tmp]
      [head -n cap tmp > tmp2]
      [bed_clip tmp2 chrsz npeak]

    The development has two layers.

    - The data layer gives the meaning of the three stages on the rows of a
      narrowPeak file: [sort_k8gr], [awk_script], [head_n], [bed_clip].
    - The orchestration layer follows [macs2] statement by statement in a
      small trace-and-exception monad: every call that leaves the script
      (shell command, helper of [encode_lib_common] or
      [encode_lib_genomic]) is recorded, and a call that raises aborts the
      remaining statements, as a Python exception does. *)

From Stdlib Require Import ZArith QArith List String Ascii Bool Lia.
From Stdlib Require Import Sorting.Sorted Sorting.Permutation.
From Stdlib Require Import DecimalString DecimalZ.
Import ListNotations.

Local Open Scope string_scope.
Local Open Scope Z_scope.

(** ** Text helpers *)

(** The horizontal tab and the two quote characters, built from their codes
    so that no literal has to escape them. *)
Definition TAB : string := String (ascii_of_nat 9) EmptyString.
Definition DQ : string := String (ascii_of_nat 34) EmptyString.
Definition SQ : string := String (ascii_of_nat 39) EmptyString.

(** ['{}'.format(n)] for a Python [int], and awk's conversion of an
    integral number to text: the decimal numeral, with a leading [-] for a
    negative number. *)
Definition dec (z : Z) : string := NilZero.string_of_int (Z.to_int z).

(** ** Interval record model

    One row of a narrowPeak file, columns [$1] to [$10].  Columns 2, 3 and 10
    are the ones awk reads as numbers; the format makes them integers, so
    they are kept as [Z] and printed back by [dec].  The other columns are
    never interpreted by awk and are kept as the text they had in the file;
    [sort] reads column 8 through [strtold].  As in the files the peak caller
    writes, a column is not empty and holds no blank, so that [sort] and awk,
    which both split at blanks, see the same ten columns. *)
Record narrowPeak : Type := mkPeak {
  chrom       : string;  (* $1 *)
  chromStart  : Z;       (* $2 *)
  chromEnd    : Z;       (* $3 *)
  name        : string;  (* $4 *)
  score       : string;  (* $5 *)
  strand      : string;  (* $6 *)
  signalValue : string;  (* $7 *)
  pValue      : string;  (* $8 *)
  qValue      : string;  (* $9 *)
  peak        : Z        (* $10 *)
}.

(** The text of a row: its ten columns joined by tabs. *)
Definition line (r : narrowPeak) : string :=
  String.concat TAB
    [chrom r; dec (chromStart r); dec (chromEnd r); name r; score r;
     strand r; signalValue r; pValue r; qValue r; dec (peak r)].

(** ** [sort -k 8gr,8gr] under [LC_COLLATE=C] *)

Definition is_digit (c : ascii) : bool :=
  let n := nat_of_ascii c in (48 <=? n)%nat && (n <=? 57)%nat.

Definition digit_val (c : ascii) : Z := Z.of_nat (nat_of_ascii c) - 48.

(** C's [isspace] in the C locale: space, and the controls 9 to 13. *)
Definition is_space (c : ascii) : bool :=
  let n := nat_of_ascii c in (n =? 32)%nat || ((9 <=? n)%nat && (n <=? 13)%nat).

Fixpoint skip_spaces (s : string) : string :=
  match s with
  | String c s' => if is_space c then skip_spaces s' else s
  | EmptyString => s
  end.

(** Reads a run of digits: the accumulated value, how many digits were
    read, and the text that follows them. *)
Fixpoint read_digits (s : string) (acc : Z) (cnt : nat) : Z * nat * string :=
  match s with
  | String c s' =>
      if is_digit c then read_digits s' (10 * acc + digit_val c) (S cnt)
      else (acc, cnt, s)
  | EmptyString => (acc, cnt, s)
  end.

Definition read_sign (s : string) : bool * string :=
  match s with
  | String "-" s' => (true, s')
  | String "+" s' => (false, s')
  | _ => (false, s)
  end.

(** The exponent part, [e] or [E], an optional sign and at least one digit;
    anything else leaves the exponent at zero. *)
Definition read_exponent (s : string) : Z :=
  match s with
  | String c s' =>
      if (c =? "e")%char || (c =? "E")%char then
        let (neg, s1) := read_sign s' in
        let '(e, n, _) := read_digits s1 0 0 in
        match n with
        | O => 0
        | _ => if neg then - e else e
        end
      else 0
  | EmptyString => 0
  end.

(** [strtold] on decimal notation: leading white space, an optional sign,
    digits with an optional fraction, an optional exponent; the text after
    the number is ignored.  [None] is the conversion error ([endptr] left at
    the start).  The value is exact, where the C function rounds to a
    [long double]; the spellings [inf], [nan] and hexadecimal notation are
    not covered.  On the keys [decimal_key] accepts the two agree: the
    theorems about the rank of rows are stated for such keys. *)
Definition strtold (s : string) : option Q :=
  let (neg, s1) := read_sign (skip_spaces s) in
  let '(ip, ni, s2) := read_digits s1 0 0 in
  let '(m, nf, s3) :=
    match s2 with
    | String "." s2' => read_digits s2' ip 0
    | _ => (ip, O, s2)
    end in
  match (ni + nf)%nat with
  | O => None
  | _ =>
      let v := (inject_Z m * Qpower (10 # 1) (read_exponent s3 - Z.of_nat nf))%Q in
      Some (if neg then Qopp v else v)
  end.

(** [general_numcompare] of GNU sort: conversion errors come first and are
    all equal, numbers compare by value. *)
Definition general_numcompare (sa sb : string) : comparison :=
  match strtold sa, strtold sb with
  | None, None => Eq
  | None, Some _ => Lt
  | Some _, None => Gt
  | Some a, Some b => (a ?= b)%Q
  end.

(** [keycompare] for the one key [8gr,8gr]: general numeric on column 8,
    reversed. *)
Definition keycompare (a b : narrowPeak) : comparison :=
  CompOpp (general_numcompare (pValue a) (pValue b)).

(** [compare] of GNU sort without [-s] and without the global [-r]: the key
    first, and when the keys are equal the last-resort comparison of the
    whole lines, which under [LC_COLLATE=C] is [memcmp]. *)
Definition compare_lines (a b : narrowPeak) : comparison :=
  match keycompare a b with
  | Eq => String.compare (line a) (line b)
  | d => d
  end.

(** The order of the output: [line_leb a b] when [sort] may write [a]
    before [b]. *)
Definition line_leb (a b : narrowPeak) : bool :=
  match compare_lines a b with
  | Gt => false
  | _ => true
  end.

(** Insertion of one row into rows already in output order. *)
Fixpoint insert_line (r : narrowPeak) (l : list narrowPeak) : list narrowPeak :=
  match l with
  | [] => [r]
  | x :: l' => if line_leb r x then r :: l else x :: insert_line r l'
  end.

(** The rows of the raw file in the order [sort] writes them.  The text of
    the output is the same whatever algorithm sorts by [compare_lines] and
    in whatever order the rows come ([sort_k8gr_order_independent] below);
    insertion is the simplest algorithm to state. *)
Definition sort_k8gr (raw : list narrowPeak) : list narrowPeak :=
  fold_right insert_line [] raw.

(** ** The awk script

    [{$4="Peak_"NR; if ($2<0) $2=0; if ($3<0) $3=0;
      if ($10==-1) $10=$2+int(($3-$2+1)/2.0); print $0}]

    The statements run in this order on one row, each seeing the
    assignments made before it; [int] truncates toward zero.  awk computes
    in doubles and prints an integral number as an integer only while it
    fits a machine [int]; [awk_int] is that range, and the theorems about
    the value written to column 10 are stated for coordinates in it. *)
Definition awk_record (NR : Z) (r : narrowPeak) : narrowPeak :=
  let f4 := "Peak_" ++ dec NR in
  let f2 := if chromStart r <? 0 then 0 else chromStart r in
  let f3 := if chromEnd r <? 0 then 0 else chromEnd r in
  let f10 := if peak r =? -1 then f2 + Z.quot (f3 - f2 + 1) 2 else peak r in
  mkPeak (chrom r) f2 f3 f4 (score r) (strand r) (signalValue r)
         (pValue r) (qValue r) f10.

(** awk runs the script on every row it reads and prints each one; [NR] is
    the number of rows read so far. *)
Fixpoint awk_from (NR : Z) (rows : list narrowPeak) : list narrowPeak :=
  match rows with
  | [] => []
  | r :: rows' => awk_record NR r :: awk_from (NR + 1) rows'
  end.

Definition awk_script (rows : list narrowPeak) : list narrowPeak :=
  awk_from 1 rows.

(** The left side of the pipe into the right side: what [cmd1] writes to
    [npeak_tmp]. *)
Definition cmd1_rows (raw : list narrowPeak) : list narrowPeak :=
  awk_script (sort_k8gr raw).

(** ** [head -n N]

    GNU [head]: the first [N] rows for [N >= 0]; with a negative count,
    every row but the last [-N].  A count [head] cannot read as a machine
    integer makes it fail; [head_count] is the range of the counts it reads,
    and the theorems about the number of rows are stated for them. *)
Definition head_n (n : Z) (rows : list narrowPeak) : list narrowPeak :=
  if 0 <=? n then firstn (Z.to_nat n) rows
  else firstn (List.length rows - Z.to_nat (- n)) rows.

(** What [cmd2] writes to [npeak_tmp2]. *)
Definition cmd2_rows (cap_num_peak : Z) (raw : list narrowPeak) : list narrowPeak :=
  head_n cap_num_peak (cmd1_rows raw).

(** ** Chromosome size table and clipping *)

Definition chrom_sizes : Type := list (string * Z).

Fixpoint chrom_length (chrsz : chrom_sizes) (c : string) : option Z :=
  match chrsz with
  | [] => None
  | (c', n) :: rest => if (c' =? c)%string then Some n else chrom_length rest c
  end.

Definition set_interval (r : narrowPeak) (s e : Z) : narrowPeak :=
  mkPeak (chrom r) s e (name r) (score r) (strand r) (signalValue r)
         (pValue r) (qValue r) (peak r).

(** Modelled from the spec: [bed_clip] of [encode_lib_genomic] is not part of
    the sources at hand.  Section 4.4: for each record, clamp [start] to
    [max(start, 0)] and [end] to [min(end, chrom_length - 1)]; a record
    whose chromosome is absent from the size table is dropped, and so is a
    record whose clamped [start > end]; the records kept stay in order. *)
Definition clip_record (chrsz : chrom_sizes) (r : narrowPeak) : option narrowPeak :=
  match chrom_length chrsz (chrom r) with
  | None => None
  | Some len =>
      let s := Z.max (chromStart r) 0 in
      let e := Z.min (chromEnd r) (len - 1) in
      if e <? s then None else Some (set_interval r s e)
  end.

(** Modelled from the spec: the Boundary Clipper of section 4.4 over a whole
    file, see [clip_record]. *)
Fixpoint bed_clip (chrsz : chrom_sizes) (rows : list narrowPeak) : list narrowPeak :=
  match rows with
  | [] => []
  | r :: rows' =>
      match clip_record chrsz r with
      | Some r' => r' :: bed_clip chrsz rows'
      | None => bed_clip chrsz rows'
      end
  end.

(** The rows of the final artifact, from the rows [macs2 callpeak] wrote. *)
Definition final_rows (chrsz : chrom_sizes) (cap_num_peak : Z)
    (raw : list narrowPeak) : list narrowPeak :=
  bed_clip chrsz (cmd2_rows cap_num_peak raw).

(** ** Python helpers used by [macs2] *)

(** Truth value of a [str]: non-empty. *)
Definition truthy (s : string) : bool :=
  match s with
  | EmptyString => false
  | String _ _ => true
  end.

Fixpoint has_slash (p : string) : bool :=
  match p with
  | EmptyString => false
  | String c p' => (c =? "/")%char || has_slash p'
  end.

(** [os.path.basename]: what follows the last slash. *)
Fixpoint basename (p : string) : string :=
  match p with
  | EmptyString => EmptyString
  | String c p' => if has_slash p then basename p' else p
  end.

Fixpoint ends_with_slash (p : string) : bool :=
  match p with
  | EmptyString => false
  | String c EmptyString => (c =? "/")%char
  | String _ p' => ends_with_slash p'
  end.

(** [os.path.join] of two components (posix). *)
Definition path_join (a b : string) : string :=
  match b with
  | String "/" _ => b
  | _ => if negb (truthy a) || ends_with_slash a then a ++ b else a ++ "/" ++ b
  end.

(** [int(math.ceil(n / d))] for integers [n] and a positive [d], with the
    true division of Python 3.  The quotient is a float: it is the exact
    one, and its ceiling this one, as long as [n] is below [2^53] and [d] a
    power of two, which [file_size] gives for [n = 2 * size]. *)
Definition ceil_div (n d : Z) : Z := - ((- n) / d).

(** ** Calls that leave the script

    One constructor per helper or system call [macs2] and [main] make.  The
    arguments are the ones that vary; the keyword arguments the source fixes
    ([non_mito=False], [mito_chr_name=None], [r1_only=False]) are left out. *)
Inductive call : Type :=
| Subsample_ta_pe (ta : string) (subsample : Z) (out_dir : string)
| Subsample_ta_se (ta : string) (subsample : Z) (out_dir : string)
| Run_shell_cmd (cmd : string)
| Getsize (path : string)
| Bed_clip (bed chrsz out_clipped_bed : string)
| Rm_f (files : list string)
| Mkdir_p (dir : string)
| Assert_file_not_empty (f : string)
| Ls_l (dir : string).

(** What lies outside the script: the helpers of [encode_lib_common] and
    [encode_lib_genomic], which are not part of the sources at hand, and the
    file system and shell behind them.  A pure helper is a function; a call
    with an effect answers [None] when it raises.  The answer depends on the
    arguments only: within one run no two calls of a helper have the same
    arguments, so this fixes nothing a run could observe. *)
Record world : Type := mkWorld {
  strip_ext_ta : string -> string;
  human_readable_number : Z -> string;
  subsample_ta_pe : string -> Z -> string -> option string;
  subsample_ta_se : string -> Z -> string -> option string;
  run_shell_cmd : string -> option unit;
  getsize : string -> option Z;
  lib_bed_clip : string -> string -> string -> option unit;
  rm_f : list string -> option unit;
  mkdir_p : string -> option unit;
  assert_file_not_empty : string -> option unit;
  ls_l : string -> option unit
}.

(** ** The trace-and-exception monad

    A computation extends the trace of calls made so far and either returns
    a value or has raised. *)
Definition M (A : Type) : Type := list call -> list call * option A.

Definition ret {A : Type} (a : A) : M A := fun tr => (tr, Some a).

Definition bind {A B : Type} (m : M A) (k : A -> M B) : M B :=
  fun tr =>
    match m tr with
    | (tr', Some a) => k a tr'
    | (tr', None) => (tr', None)
    end.

(** Makes the call [c], recorded whether it returns or raises. *)
Definition perform {A : Type} (c : call) (answer : option A) : M A :=
  fun tr => ((tr ++ [c])%list, answer).

Declare Scope monad_scope.
Delimit Scope monad_scope with monad.
Notation "x <- m ;; k" := (bind m (fun x => k))
  (at level 61, m at next level, right associativity) : monad_scope.
Notation "m ;; k" := (bind m (fun _ => k))
  (at level 61, right associativity) : monad_scope.

(** Runs a computation from the empty trace. *)
Definition run {A : Type} (m : M A) : list call * option A := m [].

(** ** [macs2] *)

(** Lines 87 to 97.  The sixth argument of [format], the value of [--shift],
    is the literal [0]. *)
Definition cmd0 (ta ctl_ta prefix gensz pval_thresh : string) (fraglen : Z) : string :=
  " macs2 callpeak "
  ++ "-t " ++ ta ++ " " ++ (if truthy ctl_ta then "-c " ++ ctl_ta else "")
  ++ " -f BED -n " ++ prefix ++ " -g " ++ gensz ++ " -p " ++ pval_thresh ++ " "
  ++ "--nomodel --shift " ++ dec 0 ++ " --extsize " ++ dec fraglen
  ++ " --keep-dup all -B --SPMR".

(** Lines 106 to 113. *)
Definition cmd1 (sort_mem_mb : Z) (prefix npeak_tmp : string) : string :=
  "LC_COLLATE=C sort -S " ++ dec sort_mem_mb ++ "M -k 8gr,8gr "
  ++ DQ ++ prefix ++ "_peaks.narrowPeak" ++ DQ ++ " | "
  ++ "awk " ++ SQ ++ "BEGIN{OFS=" ++ DQ ++ "\t" ++ DQ ++ "}"
  ++ "{$4=" ++ DQ ++ "Peak_" ++ DQ ++ "NR; if ($2<0) $2=0; if ($3<0) $3=0; if ($10==-1) "
  ++ "$10=$2+int(($3-$2+1)/2.0); print $0}" ++ SQ ++ " > " ++ npeak_tmp.

(** Lines 116 to 119. *)
Definition cmd2 (cap_num_peak : Z) (npeak_tmp npeak_tmp2 : string) : string :=
  "head -n " ++ dec cap_num_peak ++ " " ++ npeak_tmp ++ " > " ++ npeak_tmp2.

(** Lines 79 to 82: the name of the final artifact.  [pval_thresh] is the
    text ['{}'.format] gives for the float, for instance [0.01]. *)
Definition npeak_name (w : world) (prefix pval_thresh : string) (cap_num_peak : Z) : string :=
  prefix ++ "." ++ ("pval" ++ pval_thresh) ++ "."
  ++ human_readable_number w cap_num_peak ++ ".narrowPeak.gz".

(** Lines 73 to 75, the name when there is a control.  [len] counts the
    characters of the name, which are its bytes for an ASCII file name. *)
Definition prefix_x_ctl (basename_ta basename_ctl_ta : string) : string :=
  let basename_prefix := basename_ta ++ "_x_" ++ basename_ctl_ta in
  if (200 <? String.length basename_prefix)%nat then basename_ta ++ "_x_control"
  else basename_prefix.

Local Open Scope monad_scope.

(** Lines 59 to 77: the control to use and the base name of the outputs. *)
Definition ctl_branch (w : world) (basename_ta ctl_ta : string) (ctl_subsample : Z)
    (ctl_paired_end : bool) (out_dir : string) : M (string * string) :=
  if truthy ctl_ta then
    ctl_ta <-
      (if negb (ctl_subsample =? 0) then
         if ctl_paired_end then
           perform (Subsample_ta_pe ctl_ta ctl_subsample out_dir)
                   (subsample_ta_pe w ctl_ta ctl_subsample out_dir)
         else
           perform (Subsample_ta_se ctl_ta ctl_subsample out_dir)
                   (subsample_ta_se w ctl_ta ctl_subsample out_dir)
       else ret ctl_ta) ;;
    let basename_ctl_ta := basename (strip_ext_ta w ctl_ta) in
    ret (ctl_ta, prefix_x_ctl basename_ta basename_ctl_ta)
  else ret (ctl_ta, basename_ta).

(** [macs2], lines 56 to 131.  The [log.info] call is left out. *)
Definition macs2 (w : world) (ta ctl_ta chrsz gensz pval_thresh : string)
    (shift fraglen cap_num_peak ctl_subsample : Z) (ctl_paired_end : bool)
    (out_dir : string) : M string :=
  let basename_ta := basename (strip_ext_ta w ta) in
  cb <- ctl_branch w basename_ta ctl_ta ctl_subsample ctl_paired_end out_dir ;;
  let ctl_ta := fst cb in
  let basename_prefix := snd cb in
  let prefix := path_join out_dir basename_prefix in
  let npeak := npeak_name w prefix pval_thresh cap_num_peak in
  let npeak_tmp := npeak ++ ".tmp" in
  let npeak_tmp2 := npeak ++ ".tmp2" in
  let temp_files : list string := [] in
  perform (Run_shell_cmd (cmd0 ta ctl_ta prefix gensz pval_thresh fraglen))
          (run_shell_cmd w (cmd0 ta ctl_ta prefix gensz pval_thresh fraglen)) ;;
  peaks_size <- perform (Getsize (prefix ++ "_peaks.narrowPeak"))
                        (getsize w (prefix ++ "_peaks.narrowPeak")) ;;
  let sort_mem_mb := ceil_div (peaks_size * 2) (1024 * 1024) in
  perform (Run_shell_cmd (cmd1 sort_mem_mb prefix npeak_tmp))
          (run_shell_cmd w (cmd1 sort_mem_mb prefix npeak_tmp)) ;;
  perform (Run_shell_cmd (cmd2 cap_num_peak npeak_tmp npeak_tmp2))
          (run_shell_cmd w (cmd2 cap_num_peak npeak_tmp npeak_tmp2)) ;;
  perform (Bed_clip npeak_tmp2 chrsz npeak) (lib_bed_clip w npeak_tmp2 chrsz npeak) ;;
  perform (Rm_f [npeak_tmp; npeak_tmp2]) (rm_f w [npeak_tmp; npeak_tmp2]) ;;
  let temp_files := (temp_files ++ [(prefix ++ "_*")%string])%list in
  perform (Rm_f temp_files) (rm_f w temp_files) ;;
  ret npeak.

(** ** [parse_arguments] and [main] *)

(** The namespace [parser.parse_args()] returns, without [log_level]. *)
Record args : Type := mkArgs {
  tas : list string;
  fraglen : Z;
  shift : Z;
  chrsz : string;
  gensz : string;
  pval_thresh : string;
  cap_num_peak : Z;
  ctl_subsample : Z;
  ctl_paired_end : bool;
  out_dir : string
}.

(** Lines 49 and 50, applied to what [parse_args] returned. *)
Definition parse_arguments (a : args) : args :=
  if (List.length (tas a) =? 1)%nat then
    mkArgs (tas a ++ [""])%list (fraglen a) (shift a) (chrsz a) (gensz a)
           (pval_thresh a) (cap_num_peak a) (ctl_subsample a)
           (ctl_paired_end a) (out_dir a)
  else a.

(** [l[i]], raising [IndexError] out of range. *)
Definition index (l : list string) (i : nat) : M string :=
  fun tr => (tr, nth_error l i).

(** [main], lines 134 to 153; [a] is what [parse_args] returned.  The
    [log.info] calls are left out. *)
Definition main (w : world) (a : args) : M unit :=
  let a := parse_arguments a in
  perform (Mkdir_p (out_dir a)) (mkdir_p w (out_dir a)) ;;
  ta <- index (tas a) 0 ;;
  ctl_ta <- index (tas a) 1 ;;
  npeak <- macs2 w ta ctl_ta (chrsz a) (gensz a) (pval_thresh a) (shift a)
                 (fraglen a) (cap_num_peak a) (ctl_subsample a)
                 (ctl_paired_end a) (out_dir a) ;;
  perform (Assert_file_not_empty npeak) (assert_file_not_empty w npeak) ;;
  perform (Ls_l (out_dir a)) (ls_l w (out_dir a)).

Local Close Scope monad_scope.

(** ** Properties stated by the specification *)




(** The summit offset of section 4.3 of the specification: half the length
    of the interval, rounded down. *)
Definition summit_is_half_length (r : narrowPeak) : Prop :=
  peak r = (chromEnd r - chromStart r + 1) / 2.

(** The cleanup of line 125 was called for the intermediates of [npeak]. *)
Definition cleanup_called (tr : list call) (npeak : string) : Prop :=
  In (Rm_f [npeak ++ ".tmp"; npeak ++ ".tmp2"]) tr.

(** What a call of a run without control looks like: it is no subsampling;
    if it runs the peak caller, the command has nothing between [-t ta] and
    [-f BED]; if it names the final artifact, the name is built from the
    base name of the sample alone. *)
Definition control_free (w : world) (ta gensz pval_thresh : string)
    (fraglen cap_num_peak : Z) (out_dir : string) (c : call) : Prop :=
  let prefix := path_join out_dir (basename (strip_ext_ta w ta)) in
  let npeak := npeak_name w prefix pval_thresh cap_num_peak in
  match c with
  | Subsample_ta_pe _ _ _ => False
  | Subsample_ta_se _ _ _ => False
  | Run_shell_cmd cmd =>
      String.prefix " macs2 callpeak" cmd = true ->
      cmd = " macs2 callpeak -t " ++ ta ++ "  -f BED -n " ++ prefix
            ++ " -g " ++ gensz ++ " -p " ++ pval_thresh
            ++ " --nomodel --shift 0 --extsize " ++ dec fraglen
            ++ " --keep-dup all -B --SPMR"
  | Bed_clip _ _ out => out = npeak
  | Assert_file_not_empty f => f = npeak
  | _ => True
  end.

(** A call other than the verification of line 148. *)
Definition not_verification (c : call) : Prop :=
  match c with
  | Assert_file_not_empty _ => False
  | _ => True
  end.

(** The order of the output as a relation. *)
Definition line_le (a b : narrowPeak) : Prop := line_leb a b = true.

(** Rows that [sort] cannot tell apart: equal keys and the same text. *)
Definition same_line (a b : narrowPeak) : Prop := compare_lines a b = Eq.

(** ** Sample inputs *)

Definition sample_row (c : string) (s e : Z) (sv pv : string) (pk : Z) : narrowPeak :=
  mkPeak c s e "." "0" "." sv pv "1.0" pk.


(** Two rows with the same key, read from the file in this order. *)
Definition rows_tied : list narrowPeak :=
  [sample_row "chr2" 100 200 "3.0" "12.5" 50;
   sample_row "chr1" 300 400 "4.0" "12.5" 50].

(** A row for which the caller gave no summit. *)
Definition row_no_summit : narrowPeak :=
  sample_row "chr1" 100 200 "3.0" "12.5" (-1).


(** Three rows on [chr1]; the scores and summits of the scenario of
    section 8. *)
Definition rows_scenario : list narrowPeak :=
  [sample_row "chr1" 10 20 "2.0" "5" (-1);
   sample_row "chr1" 30 40 "6.0" "20" 3;
   sample_row "chr1" 50 61 "1.0" "1" (-1)].

Definition chrsz_scenario : chrom_sizes := [("chr1", 1000)].

(** [strip_ext_ta] of a sample environment: drops a final [.tagAlign.gz]. *)
Fixpoint sample_strip_ext (s : string) : string :=
  match s with
  | EmptyString => s
  | String c s' =>
      if (s =? ".tagAlign.gz")%string then EmptyString
      else String c (sample_strip_ext s')
  end.

(** [human_readable_number] of a sample environment: thousands as [K],
    millions as [M], and so on. *)
Fixpoint sample_human_readable (units : list string) (num : Z) : string :=
  match units with
  | [] => dec num ++ "E"
  | u :: units' =>
      if Z.abs num <? 1000 then dec num ++ u
      else sample_human_readable units' (Z.quot num 1000)
  end.

(** A sample environment in which every call succeeds, except that
    clipping does when [clip_ok] says so; subsampling names its output after
    the control, and the raw peak file has 3000 bytes. *)
Definition sample_world (clip_ok : bool) : world :=
  mkWorld sample_strip_ext
          (sample_human_readable [""; "K"; "M"; "G"; "T"; "P"])
          (fun ta n out_dir => Some (path_join out_dir (basename (sample_strip_ext ta)) ++ ".subsampled.tagAlign.gz"))
          (fun ta n out_dir => Some (path_join out_dir (basename (sample_strip_ext ta)) ++ ".subsampled.tagAlign.gz"))
          (fun _ => Some tt)
          (fun _ => Some 3000)
          (fun _ _ _ => if clip_ok then Some tt else None)
          (fun _ => Some tt)
          (fun _ => Some tt)
          (fun _ => Some tt)
          (fun _ => Some tt).

(** A command line: one replicate, no control, [--fraglen 200 --shift 5
    --chrsz hg38.chrom.sizes --gensz hs --out-dir out] and the defaults for
    the rest. *)
Definition sample_args : args :=
  mkArgs ["in/rep1.tagAlign.gz"] 200 5 "hg38.chrom.sizes" "hs" "0.01"
         500000 0 false "out".

(** ** The inputs on which the tools are modelled exactly *)




(** A coordinate awk reads, computes with and prints back exactly: one that
    fits a 32-bit [int]. *)
Definition awk_int (x : Z) : Prop := - 2147483648 < x < 2147483648.

(** A line count [head -n] reads: one that fits a signed 64-bit integer. *)
Definition head_count (n : Z) : Prop :=
  - 9223372036854775808 < n < 9223372036854775808.

(** A file size whose double is below [2^53] bytes, so that the float
    quotient of line 104 is exact. *)
Definition file_size (n : Z) : Prop := 0 <= n < 4503599627370496.

(** ** Further properties: predicates and inputs *)


(** [r'] is the row [r] after normalization, whatever its rank: the six
    columns awk never assigns are the same text, and the coordinates are
    those of [r] with the negative ones set to 0. *)
Definition normalized_from (r r' : narrowPeak) : Prop :=
  chrom r' = chrom r /\ score r' = score r /\ strand r' = strand r /\
  signalValue r' = signalValue r /\ pValue r' = pValue r /\
  qValue r' = qValue r /\
  chromStart r' = Z.max 0 (chromStart r) /\
  chromEnd r' = Z.max 0 (chromEnd r).

Definition is_none {A : Type} (o : option A) : bool :=
  match o with
  | None => true
  | Some _ => false
  end.

(** The call [c] raises in the world [w]. *)
Definition raises (w : world) (c : call) : bool :=
  match c with
  | Subsample_ta_pe ta n d => is_none (subsample_ta_pe w ta n d)
  | Subsample_ta_se ta n d => is_none (subsample_ta_se w ta n d)
  | Run_shell_cmd cmd => is_none (run_shell_cmd w cmd)
  | Getsize path => is_none (getsize w path)
  | Bed_clip bed chrsz out => is_none (lib_bed_clip w bed chrsz out)
  | Rm_f files => is_none (rm_f w files)
  | Mkdir_p dir => is_none (mkdir_p w dir)
  | Assert_file_not_empty f => is_none (assert_file_not_empty w f)
  | Ls_l dir => is_none (ls_l w dir)
  end.

(** Every call of the trace returned. *)
Definition all_returned (w : world) (tr : list call) : Prop :=
  Forall (fun c : call => raises w c = false) tr.

(** The outcome of a run in which no exception is swallowed and nothing is
    retried: either the run returned and every call it made returned, or it
    raised, the last call it made is the one that raised, and every call
    before it returned. *)
Definition fails_fast {A : Type} (w : world) (out : list call * option A) : Prop :=
  match snd out with
  | Some _ => all_returned w (fst out)
  | None =>
      exists (tr0 : list call) (c : call),
        fst out = (tr0 ++ [c])%list /\ raises w c = true /\ all_returned w tr0
  end.

(** A computation whose outcome is [fails_fast] from every trace of calls
    that returned. *)
Definition fails_fast_from {A : Type} (w : world) (m : M A) : Prop :=
  forall tr : list call, all_returned w tr -> fails_fast w (m tr).

Definition is_subsample (c : call) : Prop :=
  match c with
  | Subsample_ta_pe _ _ _ => True
  | Subsample_ta_se _ _ _ => True
  | _ => False
  end.

(** The same command line as [sample_args] with a control and a third
    path. *)
Definition sample_args_three : args :=
  mkArgs ["in/rep1.tagAlign.gz"; "in/ctl1.tagAlign.gz"; "in/other.tagAlign.gz"]
         200 5 "hg38.chrom.sizes" "hs" "0.01" 500000 0 false "out".

(** Takes every answer of the world apart, one call after the other. *)
Ltac answer_all :=
  repeat (match goal with
          | |- context [match ?x with Some _ => _ | None => _ end] => destruct x
          end; cbn [fst snd]).

(** ** Order lemmas *)

Lemma general_numcompare_antisym (sa sb : string) :
  general_numcompare sb sa = CompOpp (general_numcompare sa sb).
Proof.
  unfold general_numcompare.
  destruct (strtold sa) as [a|], (strtold sb) as [b|]; simpl; trivial.
  symmetry. apply Qcompare_antisym.
Qed.

Lemma compare_lines_antisym (a b : narrowPeak) :
  compare_lines b a = CompOpp (compare_lines a b).
Proof.
  unfold compare_lines, keycompare.
  rewrite (general_numcompare_antisym (pValue a) (pValue b)).
  destruct (general_numcompare (pValue a) (pValue b)); simpl; trivial.
  apply String.compare_antisym.
Qed.

Lemma line_leb_total (a b : narrowPeak) :
  line_leb a b = true \/ line_leb b a = true.
Proof.
  unfold line_leb. rewrite (compare_lines_antisym a b).
  destruct (compare_lines a b); simpl; auto.
Qed.

Lemma line_leb_false (a b : narrowPeak) :
  line_leb a b = false -> line_leb b a = true.
Proof.
  intros H. destruct (line_leb_total a b) as [E|E]; congruence.
Qed.

Lemma ascii_compare_trans (c : comparison) (x y z : ascii) :
  Ascii.compare x y = c -> Ascii.compare y z = c -> Ascii.compare x z = c.
Proof.
  unfold Ascii.compare. intros H1 H2. destruct c.
  - apply N.compare_eq_iff in H1, H2. apply N.compare_eq_iff. congruence.
  - rewrite N.compare_lt_iff in *. lia.
  - rewrite N.compare_gt_iff in *. lia.
Qed.

Lemma ascii_compare_eq (x y : ascii) : Ascii.compare x y = Eq -> x = y.
Proof. apply Ascii.compare_eq_iff. Qed.

Lemma string_compare_trans (c : comparison) (s1 : string) :
  forall s2 s3 : string,
    String.compare s1 s2 = c -> String.compare s2 s3 = c -> String.compare s1 s3 = c.
Proof.
  induction s1 as [|x s1 IH]; intros [|y s2] [|z s3]; simpl; try congruence.
  destruct (Ascii.compare x y) eqn:Exy.
  - apply ascii_compare_eq in Exy. subst y.
    destruct (Ascii.compare x z) eqn:Exz; try congruence. apply IH.
  - destruct (Ascii.compare y z) eqn:Eyz; intros H1 H2.
    + apply ascii_compare_eq in Eyz. subst z. rewrite Exy. exact H1.
    + rewrite (ascii_compare_trans Lt x y z Exy Eyz). exact H1.
    + congruence.
  - destruct (Ascii.compare y z) eqn:Eyz; intros H1 H2.
    + apply ascii_compare_eq in Eyz. subst z. rewrite Exy. exact H1.
    + congruence.
    + rewrite (ascii_compare_trans Gt x y z Exy Eyz). exact H1.
Qed.

Lemma string_compare_le_trans (s1 s2 s3 : string) :
  String.compare s1 s2 <> Gt -> String.compare s2 s3 <> Gt ->
  String.compare s1 s3 <> Gt.
Proof.
  intros H1 H2.
  destruct (String.compare s1 s2) eqn:E1; try congruence;
    destruct (String.compare s2 s3) eqn:E2; try congruence.
  - rewrite (string_compare_trans Eq s1 s2 s3 E1 E2). discriminate.
  - apply String.compare_eq_iff in E1. subst s2. rewrite E2. discriminate.
  - apply String.compare_eq_iff in E2. subst s3. rewrite E1. discriminate.
  - rewrite (string_compare_trans Lt s1 s2 s3 E1 E2). discriminate.
Qed.

Lemma general_numcompare_eq_l (sa sb sc : string) :
  general_numcompare sa sb = Eq ->
  general_numcompare sa sc = general_numcompare sb sc.
Proof.
  unfold general_numcompare.
  destruct (strtold sa) as [a|], (strtold sb) as [b|], (strtold sc) as [c|];
    simpl; try congruence.
  intros H. apply Qeq_alt in H. now rewrite H.
Qed.

Lemma general_numcompare_eq_r (sa sb sc : string) :
  general_numcompare sb sc = Eq ->
  general_numcompare sa sb = general_numcompare sa sc.
Proof.
  unfold general_numcompare.
  destruct (strtold sa) as [a|], (strtold sb) as [b|], (strtold sc) as [c|];
    simpl; try congruence.
  intros H. apply Qeq_alt in H. now rewrite H.
Qed.

Lemma general_numcompare_gt_trans (sa sb sc : string) :
  general_numcompare sa sb = Gt -> general_numcompare sb sc = Gt ->
  general_numcompare sa sc = Gt.
Proof.
  unfold general_numcompare.
  destruct (strtold sa) as [a|], (strtold sb) as [b|], (strtold sc) as [c|];
    simpl; try congruence.
  intros H1 H2. apply Qgt_alt in H1, H2. apply Qgt_alt.
  eapply Qlt_trans; eassumption.
Qed.

Lemma line_le_trans (a b c : narrowPeak) :
  line_le a b -> line_le b c -> line_le a c.
Proof.
  unfold line_le, line_leb, compare_lines, keycompare.
  destruct (general_numcompare (pValue a) (pValue b)) eqn:Eab; simpl;
    try discriminate;
    destruct (general_numcompare (pValue b) (pValue c)) eqn:Ebc; simpl;
    try discriminate; intros H1 H2.
  - rewrite (general_numcompare_eq_l _ _ _ Eab), Ebc. simpl.
    destruct (String.compare (line a) (line c)) eqn:E; trivial.
    exfalso. apply (string_compare_le_trans (line a) (line b) (line c)); trivial.
    + intro G. now rewrite G in H1.
    + intro G. now rewrite G in H2.
  - now rewrite (general_numcompare_eq_l _ _ _ Eab), Ebc.
  - now rewrite <- (general_numcompare_eq_r _ _ _ Ebc), Eab.
  - now rewrite (general_numcompare_gt_trans _ _ _ Eab Ebc).
Qed.

(** ** The sort: ordered output, same rows *)

Lemma insert_line_perm (r : narrowPeak) (l : list narrowPeak) :
  Permutation (r :: l) (insert_line r l).
Proof.
  induction l as [|x l IH]; simpl.
  - apply Permutation_refl.
  - destruct (line_leb r x).
    + apply Permutation_refl.
    + eapply perm_trans; [apply perm_swap|]. now apply perm_skip.
Qed.

Lemma sort_k8gr_perm (raw : list narrowPeak) : Permutation raw (sort_k8gr raw).
Proof.
  induction raw as [|r raw IH]; simpl.
  - apply perm_nil.
  - eapply perm_trans; [apply perm_skip, IH|]. apply insert_line_perm.
Qed.






(** ** The sort: one output for all orders of the input *)

Lemma general_numcompare_refl (s : string) : general_numcompare s s = Eq.
Proof.
  unfold general_numcompare. destruct (strtold s) as [q|]; trivial.
  apply Qeq_alt. reflexivity.
Qed.

Lemma string_compare_refl (s : string) : String.compare s s = Eq.
Proof.
  induction s as [|c s IH]; simpl; [reflexivity|].
  unfold Ascii.compare. now rewrite N.compare_refl.
Qed.

Lemma same_line_refl (a : narrowPeak) : same_line a a.
Proof.
  unfold same_line, compare_lines, keycompare.
  rewrite general_numcompare_refl. simpl. apply string_compare_refl.
Qed.

Lemma same_line_inv (a b : narrowPeak) :
  same_line a b ->
  general_numcompare (pValue a) (pValue b) = Eq /\ line a = line b.
Proof.
  unfold same_line, compare_lines, keycompare.
  destruct (general_numcompare (pValue a) (pValue b)); simpl; try discriminate.
  intros H. split; [reflexivity|]. now apply String.compare_eq_iff.
Qed.

Lemma same_line_compare_r (x a b : narrowPeak) :
  same_line a b -> compare_lines x a = compare_lines x b.
Proof.
  intros H. destruct (same_line_inv a b H) as [Ek El].
  unfold compare_lines, keycompare.
  now rewrite (general_numcompare_eq_r (pValue x) _ _ Ek), El.
Qed.

Lemma same_line_trans (a b c : narrowPeak) :
  same_line a b -> same_line b c -> same_line a c.
Proof.
  intros H1 H2. unfold same_line.
  rewrite <- (same_line_compare_r a b c H2). exact H1.
Qed.

Lemma line_le_antisym (a b : narrowPeak) :
  line_leb a b = true -> line_leb b a = true -> same_line a b.
Proof.
  unfold line_leb, same_line. rewrite (compare_lines_antisym a b).
  destruct (compare_lines a b); simpl; congruence.
Qed.

Lemma same_line_Forall2_refl (l : list narrowPeak) : Forall2 same_line l l.
Proof.
  induction l; constructor; trivial. apply same_line_refl.
Qed.

Lemma same_line_Forall2_trans (l1 l2 l3 : list narrowPeak) :
  Forall2 same_line l1 l2 -> Forall2 same_line l2 l3 -> Forall2 same_line l1 l3.
Proof.
  intros H. revert l3. induction H as [|a b l1 l2 Hab H IH]; intros l3 H3.
  - exact H3.
  - inversion H3 as [|b' c l2' l3' Hbc H3']; subst. constructor.
    + now apply (same_line_trans a b c).
    + now apply IH.
Qed.

Lemma insert_line_same (x : narrowPeak) (l l' : list narrowPeak) :
  Forall2 same_line l l' ->
  Forall2 same_line (insert_line x l) (insert_line x l').
Proof.
  induction 1 as [|a b l l' Hab H IH]; simpl.
  - constructor; [apply same_line_refl|constructor].
  - assert (E : line_leb x a = line_leb x b).
    { unfold line_leb. now rewrite (same_line_compare_r x a b Hab). }
    rewrite E. destruct (line_leb x b).
    + constructor; [apply same_line_refl|now constructor].
    + now constructor.
Qed.

Lemma insert_line_swap (x y : narrowPeak) (l : list narrowPeak) :
  Forall2 same_line (insert_line x (insert_line y l))
                    (insert_line y (insert_line x l)).
Proof.
  induction l as [|z l IH]; simpl.
  - destruct (line_leb x y) eqn:Exy, (line_leb y x) eqn:Eyx.
    + constructor; [now apply line_le_antisym|].
      constructor; [now apply line_le_antisym|constructor].
    + apply same_line_Forall2_refl.
    + apply same_line_Forall2_refl.
    + apply line_leb_false in Exy. congruence.
  - destruct (line_leb y z) eqn:Eyz, (line_leb x z) eqn:Exz; simpl.
    + destruct (line_leb x y) eqn:Exy, (line_leb y x) eqn:Eyx;
        rewrite ?Eyz, ?Exz.
      * constructor; [now apply line_le_antisym|].
        constructor; [now apply line_le_antisym|apply same_line_Forall2_refl].
      * apply same_line_Forall2_refl.
      * apply same_line_Forall2_refl.
      * apply line_leb_false in Exy. congruence.
    + assert (Eyx : line_leb y x = true).
      { destruct (line_leb y x) eqn:E; trivial. apply line_leb_false in E.
        pose proof (line_le_trans x y z E Eyz) as T. unfold line_le in T.
        congruence. }
      assert (Exy : line_leb x y = false).
      { destruct (line_leb x y) eqn:E; trivial.
        pose proof (line_le_trans x y z E Eyz) as T. unfold line_le in T.
        congruence. }
      rewrite ?Exy, ?Eyx, ?Exz, ?Eyz. apply same_line_Forall2_refl.
    + assert (Exy : line_leb x y = true).
      { destruct (line_leb x y) eqn:E; trivial. apply line_leb_false in E.
        pose proof (line_le_trans y x z E Exz) as T. unfold line_le in T.
        congruence. }
      assert (Eyx : line_leb y x = false).
      { destruct (line_leb y x) eqn:E; trivial.
        pose proof (line_le_trans y x z E Exz) as T. unfold line_le in T.
        congruence. }
      rewrite ?Exy, ?Eyx, ?Exz, ?Eyz. apply same_line_Forall2_refl.
    + rewrite ?Exz, ?Eyz. constructor; [apply same_line_refl|exact IH].
Qed.

Lemma sort_k8gr_same (l l' : list narrowPeak) :
  Permutation l l' -> Forall2 same_line (sort_k8gr l) (sort_k8gr l').
Proof.
  induction 1 as [|x l l' H IH|x y l|l1 l2 l3 H1 IH1 H2 IH2]; simpl.
  - constructor.
  - now apply insert_line_same.
  - apply insert_line_swap.
  - now apply (same_line_Forall2_trans _ (sort_k8gr l2)).
Qed.

(** X1: the text [sort] writes depends on the rows of the raw file, not on
    the order they come in: two raw files that hold the same rows in
    different orders are sorted into the same lines, ties included. *)
Lemma sort_k8gr_order_independent (l l' : list narrowPeak) :
  Permutation l l' -> map line (sort_k8gr l) = map line (sort_k8gr l').
Proof.
  intros H. apply sort_k8gr_same in H.
  induction H as [|a b s s' Hab H IH]; simpl; [reflexivity|].
  f_equal; [|exact IH]. now apply same_line_inv.
Qed.

(** ** C1: the sort key *)




(** ** C5: ties *)




(** ** The awk script, row by row *)

Lemma awk_from_nth_error (rows : list narrowPeak) :
  forall (NR : Z) (i : nat) (r : narrowPeak),
    nth_error rows i = Some r ->
    nth_error (awk_from NR rows) i = Some (awk_record (NR + Z.of_nat i) r).
Proof.
  induction rows as [|x rows IH]; intros NR [|i] r H; simpl in *; try discriminate.
  - injection H as <-. now rewrite Z.add_0_r.
  - rewrite (IH (NR + 1) i r H). do 2 f_equal. lia.
Qed.

Lemma awk_from_nth_error_inv (rows : list narrowPeak) :
  forall (NR : Z) (i : nat) (r' : narrowPeak),
    nth_error (awk_from NR rows) i = Some r' ->
    exists r, nth_error rows i = Some r /\ r' = awk_record (NR + Z.of_nat i) r.
Proof.
  induction rows as [|x rows IH]; intros NR [|i] r' H; simpl in *; try discriminate.
  - injection H as <-. exists x. now rewrite Z.add_0_r.
  - destruct (IH (NR + 1) i r' H) as (r & Hr & ->). exists r. split; trivial.
    f_equal. lia.
Qed.

Lemma awk_from_length (rows : list narrowPeak) :
  forall NR : Z, List.length (awk_from NR rows) = List.length rows.
Proof.
  induction rows as [|x rows IH]; intros NR; simpl; [reflexivity|].
  now rewrite IH.
Qed.

(** ** C2: the summit written for the sentinel *)

(** C2 does not hold of the code: [row_no_summit] spans 100 to 200 and has
    the sentinel; awk writes 150, the start added to the half length, where
    the offset from the start is 50.  The rows awk leaves alone keep the
    offset the peak caller wrote in the same column. *)
Lemma awk_summit_not_half_length :
  peak row_no_summit = -1 /\
  chromStart (awk_record 1 row_no_summit) = chromStart row_no_summit /\
  chromEnd (awk_record 1 row_no_summit) = chromEnd row_no_summit /\
  ~ summit_is_half_length (awk_record 1 row_no_summit).
Proof.
  repeat split. unfold summit_is_half_length. vm_compute. discriminate.
Qed.

(** What awk writes to column 10, for coordinates in the range of
    [awk_int]: for the sentinel -1, [start + trunc((end - start + 1) / 2)]
    on the coordinates after the negative ones were set to 0, [trunc]
    rounding toward zero; any other value is kept. *)
Lemma awk_summit_backfill (rows : list narrowPeak) (i : nat) (r : narrowPeak) :
  awk_int (chromStart r) -> awk_int (chromEnd r) ->
  nth_error rows i = Some r ->
  exists r' : narrowPeak,
    nth_error (awk_script rows) i = Some r' /\
    chromStart r' = Z.max 0 (chromStart r) /\
    chromEnd r' = Z.max 0 (chromEnd r) /\
    peak r' = if peak r =? -1
              then chromStart r' + Z.quot (chromEnd r' - chromStart r' + 1) 2
              else peak r.
Proof.
  intros _ _ H. exists (awk_record (1 + Z.of_nat i) r). split.
  - now apply awk_from_nth_error.
  - unfold awk_record; simpl.
    destruct (Z.ltb_spec (chromStart r) 0), (Z.ltb_spec (chromEnd r) 0);
      repeat split; try lia; reflexivity.
Qed.

Lemma awk_summit_backfill_witness :
  exists r' : narrowPeak,
    nth_error (awk_script [row_no_summit]) 0 = Some r' /\
    chromStart r' = Z.max 0 (chromStart row_no_summit) /\
    chromEnd r' = Z.max 0 (chromEnd row_no_summit) /\
    peak r' = if peak row_no_summit =? -1
              then chromStart r' + Z.quot (chromEnd r' - chromStart r' + 1) 2
              else peak row_no_summit.
Proof.
  apply (awk_summit_backfill [row_no_summit] 0 row_no_summit);
    [split; reflexivity|split; reflexivity|reflexivity].
Defined.

(** ** C8: the clamps, and what is left alone *)



(** ** Truncation and clipping *)

Lemma head_n_prefix (n : Z) (rows : list narrowPeak) :
  exists m : nat, head_n n rows = firstn m rows.
Proof.
  unfold head_n. destruct (0 <=? n); eexists; reflexivity.
Qed.

Lemma nth_error_firstn_some {A : Type} (m : nat) (l : list A) (i : nat) (a : A) :
  nth_error (firstn m l) i = Some a -> nth_error l i = Some a.
Proof.
  rewrite nth_error_firstn. destruct (Nat.ltb i m); [trivial|discriminate].
Qed.

Lemma clip_record_name (chrsz : chrom_sizes) (r r' : narrowPeak) :
  clip_record chrsz r = Some r' -> name r' = name r.
Proof.
  unfold clip_record. destruct (chrom_length chrsz (chrom r)); [|discriminate].
  destruct (_ <? _); [discriminate|]. now intros [= <-].
Qed.

Lemma bed_clip_length (chrsz : chrom_sizes) (rows : list narrowPeak) :
  (List.length (bed_clip chrsz rows) <= List.length rows)%nat.
Proof.
  induction rows as [|r rows IH]; simpl; [lia|].
  destruct (clip_record chrsz r); simpl; lia.
Qed.

Lemma bed_clip_In (chrsz : chrom_sizes) (rows : list narrowPeak) (r' : narrowPeak) :
  In r' (bed_clip chrsz rows) ->
  exists (i : nat) (r : narrowPeak),
    nth_error rows i = Some r /\ clip_record chrsz r = Some r'.
Proof.
  induction rows as [|x rows IH]; simpl; [tauto|].
  destruct (clip_record chrsz x) as [x'|] eqn:E.
  - intros [<-|H].
    + exists 0%nat, x. now split.
    + destruct (IH H) as (i & r & Hi & Hr). exists (S i), r. now split.
  - intros H. destruct (IH H) as (i & r & Hi & Hr). exists (S i), r. now split.
Qed.

Lemma bed_clip_names_NoDup (chrsz : chrom_sizes) (rows : list narrowPeak) :
  NoDup (map name rows) -> NoDup (map name (bed_clip chrsz rows)).
Proof.
  induction rows as [|x rows IH]; simpl; [trivial|].
  intros H. inversion H as [|n ns Hn Hns]; subst.
  destruct (clip_record chrsz x) as [x'|] eqn:E; [|now apply IH].
  simpl. constructor; [|now apply IH].
  rewrite (clip_record_name chrsz x x' E). intros Hin. apply Hn.
  apply in_map_iff in Hin. destruct Hin as (y' & Hy' & Hin).
  destruct (bed_clip_In chrsz rows y' Hin) as (i & y & Hi & Hy).
  rewrite <- Hy', (clip_record_name chrsz y y' Hy).
  apply in_map. eapply nth_error_In; eassumption.
Qed.

(** ** Names *)

Lemma to_int_nonnil (z : Z) : Z.to_int z <> Decimal.Pos Decimal.Nil /\
                              Z.to_int z <> Decimal.Neg Decimal.Nil.
Proof.
  destruct z as [|p|p]; simpl; split; try discriminate; intros [= E];
    now apply (DecimalPos.Unsigned.to_uint_nonnil p).
Qed.

Lemma dec_inj (x y : Z) : dec x = dec y -> x = y.
Proof.
  unfold dec. intros E. apply DecimalZ.to_int_inj.
  destruct (to_int_nonnil x) as [Hx1 Hx2], (to_int_nonnil y) as [Hy1 Hy2].
  pose proof (NilZero.isi (Z.to_int x) Hx1 Hx2) as Ix.
  pose proof (NilZero.isi (Z.to_int y) Hy1 Hy2) as Iy.
  rewrite E in Ix. congruence.
Qed.

Lemma cmd2_rows_names (cap_num_peak : Z) (raw : list narrowPeak) (i : nat)
    (r : narrowPeak) :
  nth_error (cmd2_rows cap_num_peak raw) i = Some r ->
  name r = "Peak_" ++ dec (Z.of_nat i + 1).
Proof.
  unfold cmd2_rows, cmd1_rows, awk_script.
  destruct (head_n_prefix cap_num_peak (awk_from 1 (sort_k8gr raw))) as [m ->].
  intros H. apply nth_error_firstn_some in H.
  apply awk_from_nth_error_inv in H. destruct H as (r0 & _ & ->).
  unfold awk_record. cbn [name]. now rewrite Z.add_comm.
Qed.

Lemma cmd2_rows_names_NoDup (cap_num_peak : Z) (raw : list narrowPeak) :
  NoDup (map name (cmd2_rows cap_num_peak raw)).
Proof.
  apply NoDup_nth_error. intros i j Hi E.
  rewrite length_map in Hi. rewrite !nth_error_map in E.
  destruct (nth_error (cmd2_rows cap_num_peak raw) i) as [a|] eqn:Ea.
  - destruct (nth_error (cmd2_rows cap_num_peak raw) j) as [b|] eqn:Eb;
      [|discriminate].
    simpl in E. injection E as E.
    rewrite (cmd2_rows_names _ _ _ _ Ea), (cmd2_rows_names _ _ _ _ Eb) in E.
    injection E as E. apply dec_inj in E. lia.
  - apply nth_error_None in Ea. lia.
Qed.

(** ** C6: the cap *)

(** C6: for every input, the cap being a count [head -n] reads (not
    negative, within 64 bits), the truncate step keeps only the first
    [cap_num_peak] records of the sorted, normalized sequence, no later
    stage adds records, and the number of records in the final output
    artifact is at most [cap_num_peak]. *)
Theorem final_rows_capped (chrsz : chrom_sizes) (cap_num_peak : Z)
    (raw : list narrowPeak) :
  0 <= cap_num_peak -> head_count cap_num_peak ->
  cmd2_rows cap_num_peak raw = firstn (Z.to_nat cap_num_peak) (cmd1_rows raw) /\
  (List.length (final_rows chrsz cap_num_peak raw)
   <= List.length (cmd2_rows cap_num_peak raw))%nat /\
  Z.of_nat (List.length (final_rows chrsz cap_num_peak raw)) <= cap_num_peak.
Proof.
  intros Hcap _.
  assert (E : cmd2_rows cap_num_peak raw
              = firstn (Z.to_nat cap_num_peak) (cmd1_rows raw)).
  { unfold cmd2_rows, head_n. destruct (Z.leb_spec 0 cap_num_peak); [reflexivity|lia]. }
  split; [exact E|]. split; [apply bed_clip_length|].
  pose proof (bed_clip_length chrsz (cmd2_rows cap_num_peak raw)) as H.
  unfold final_rows. rewrite E in *.
  pose proof (firstn_le_length (Z.to_nat cap_num_peak) (cmd1_rows raw)). lia.
Qed.

Lemma final_rows_capped_witness :
  cmd2_rows 2 rows_scenario = firstn (Z.to_nat 2) (cmd1_rows rows_scenario) /\
  (List.length (final_rows chrsz_scenario 2 rows_scenario)
   <= List.length (cmd2_rows 2 rows_scenario))%nat /\
  Z.of_nat (List.length (final_rows chrsz_scenario 2 rows_scenario)) <= 2.
Proof.
  apply (final_rows_capped chrsz_scenario 2 rows_scenario);
    [lia|split; reflexivity].
Defined.

(** ** C7: names in the final artifact *)

(** C7: every record of the final output comes from a record of the
    sorted-then-capped sequence, and its name is [Peak_] followed by the
    1-based position of that record in the sequence; awk numbers the rows
    after the sort and before [head] truncates them, so the names are unique
    within the file. *)
Theorem final_rows_names (chrsz : chrom_sizes) (cap_num_peak : Z)
    (raw : list narrowPeak) :
  (forall r : narrowPeak,
     In r (final_rows chrsz cap_num_peak raw) ->
     exists (i : nat) (r0 : narrowPeak),
       nth_error (cmd2_rows cap_num_peak raw) i = Some r0 /\
       nth_error (cmd1_rows raw) i = Some r0 /\
       clip_record chrsz r0 = Some r /\
       name r = "Peak_" ++ dec (Z.of_nat i + 1)) /\
  NoDup (map name (final_rows chrsz cap_num_peak raw)).
Proof.
  split.
  - intros r Hr. unfold final_rows in Hr.
    destruct (bed_clip_In chrsz _ r Hr) as (i & r0 & Hi & Hc).
    exists i, r0. repeat split; trivial.
    + unfold cmd2_rows in Hi.
      destruct (head_n_prefix cap_num_peak (cmd1_rows raw)) as [m E].
      rewrite E in Hi. now apply nth_error_firstn_some in Hi.
    + rewrite (clip_record_name chrsz r0 r Hc).
      now apply (cmd2_rows_names cap_num_peak raw).
  - apply bed_clip_names_NoDup, cmd2_rows_names_NoDup.
Qed.

Lemma final_rows_names_witness :
  exists (i : nat) (r0 : narrowPeak),
    nth_error (cmd2_rows 2 rows_scenario) i = Some r0 /\
    nth_error (cmd1_rows rows_scenario) i = Some r0 /\
    clip_record chrsz_scenario r0
    = Some (mkPeak "chr1" 10 20 "Peak_2" "0" "." "2.0" "5" "1.0" 15) /\
    name (mkPeak "chr1" 10 20 "Peak_2" "0" "." "2.0" "5" "1.0" 15)
    = "Peak_" ++ dec (Z.of_nat i + 1).
Proof.
  apply (proj1 (final_rows_names chrsz_scenario 2 rows_scenario)).
  right. left. reflexivity.
Defined.

(** ** Running [macs2] *)

Lemma bind_perform {A B : Type} (c : call) (answer : option A) (k : A -> M B)
    (tr : list call) :
  bind (perform c answer) k tr
  = match answer with
    | Some a => k a (tr ++ [c])%list
    | None => ((tr ++ [c])%list, None)
    end.
Proof. unfold bind, perform. now destruct answer. Qed.

Lemma bind_ret {A B : Type} (a : A) (k : A -> M B) (tr : list call) :
  bind (ret a) k tr = k a tr.
Proof. reflexivity. Qed.

(** The two ways [ctl_branch] returns: without control, or with one, which
    is the given file or the answer of the one subsampling call made. *)
Lemma ctl_branch_returns (w : world) (bta ctl_ta : string) (sub : Z) (pe : bool)
    (out_dir : string) (tr0 tr : list call) (ctl' bp : string) :
  ctl_branch w bta ctl_ta sub pe out_dir tr0 = (tr, Some (ctl', bp)) ->
  (truthy ctl_ta = false /\ tr = tr0 /\ ctl' = ctl_ta /\ bp = bta) \/
  (truthy ctl_ta = true /\
   bp = prefix_x_ctl bta (basename (strip_ext_ta w ctl')) /\
   ((sub = 0 /\ tr = tr0 /\ ctl' = ctl_ta) \/
    (sub <> 0 /\ exists c : call, tr = (tr0 ++ [c])%list))).
Proof.
  unfold ctl_branch. destruct (truthy ctl_ta).
  - intros H. right. split; [reflexivity|].
    destruct (Z.eqb_spec sub 0) as [E|E]; simpl in H.
    + rewrite bind_ret in H. injection H as <- <- <-. split; [reflexivity|].
      left. now repeat split.
    + destruct pe; rewrite bind_perform in H.
      * destruct (subsample_ta_pe w ctl_ta sub out_dir); [|discriminate].
        injection H as <- <- <-. split; [reflexivity|]. right. split; [exact E|].
        eexists; reflexivity.
      * destruct (subsample_ta_se w ctl_ta sub out_dir); [|discriminate].
        injection H as <- <- <-. split; [reflexivity|]. right. split; [exact E|].
        eexists; reflexivity.
  - intros [= <- <- <-]. left. now repeat split.
Qed.

(** When [macs2] returns, every statement ran: the trace is the calls of
    [ctl_branch] followed by the seven calls of lines 98 to 129. *)
Lemma macs2_returns (w : world) (ta ctl_ta chrsz gensz pval_thresh : string)
    (shift fraglen cap_num_peak ctl_subsample : Z) (ctl_paired_end : bool)
    (out_dir : string) (tr0 tr : list call) (npeak : string) :
  macs2 w ta ctl_ta chrsz gensz pval_thresh shift fraglen cap_num_peak
        ctl_subsample ctl_paired_end out_dir tr0 = (tr, Some npeak) ->
  exists (trc : list call) (ctl' bp : string) (peaks_size : Z),
    ctl_branch w (basename (strip_ext_ta w ta)) ctl_ta ctl_subsample
               ctl_paired_end out_dir tr0 = (trc, Some (ctl', bp)) /\
    npeak = npeak_name w (path_join out_dir bp) pval_thresh cap_num_peak /\
    tr = List.app trc
          [Run_shell_cmd (cmd0 ta ctl' (path_join out_dir bp) gensz pval_thresh fraglen);
           Getsize (path_join out_dir bp ++ "_peaks.narrowPeak");
           Run_shell_cmd (cmd1 (ceil_div (peaks_size * 2) (1024 * 1024))
                               (path_join out_dir bp) (npeak ++ ".tmp"));
           Run_shell_cmd (cmd2 cap_num_peak (npeak ++ ".tmp") (npeak ++ ".tmp2"));
           Bed_clip (npeak ++ ".tmp2") chrsz npeak;
           Rm_f [npeak ++ ".tmp"; npeak ++ ".tmp2"];
           Rm_f [path_join out_dir bp ++ "_*"]].
Proof.
  unfold macs2. unfold bind at 1.
  destruct (ctl_branch w (basename (strip_ext_ta w ta)) ctl_ta ctl_subsample
              ctl_paired_end out_dir tr0) as [trc [[ctl' bp]|]] eqn:Ec;
    [|discriminate].
  cbn [fst snd]. rewrite bind_perform.
  destruct (run_shell_cmd w _); [|discriminate]. rewrite bind_perform.
  destruct (getsize w _) as [peaks_size|]; [|discriminate]. rewrite bind_perform.
  destruct (run_shell_cmd w _); [|discriminate]. rewrite bind_perform.
  destruct (run_shell_cmd w _); [|discriminate]. rewrite bind_perform.
  destruct (lib_bed_clip w _ _ _); [|discriminate]. rewrite bind_perform.
  destruct (rm_f w _); [|discriminate]. rewrite bind_perform.
  destruct (rm_f w _); [|discriminate].
  unfold ret. intros [= <- <-].
  exists trc, ctl', bp, peaks_size. split; [reflexivity|]. split; [reflexivity|].
  rewrite <- !app_assoc. reflexivity.
Qed.

Lemma ctl_branch_extends (w : world) (bta ctl_ta : string) (sub : Z) (pe : bool)
    (out_dir : string) (tr0 tr : list call) (r : option (string * string)) :
  ctl_branch w bta ctl_ta sub pe out_dir tr0 = (tr, r) ->
  exists extra : list call,
    tr = (tr0 ++ extra)%list /\ Forall not_verification extra.
Proof.
  unfold ctl_branch. destruct (truthy ctl_ta).
  - destruct (negb (sub =? 0)).
    + destruct pe; rewrite bind_perform.
      * destruct (subsample_ta_pe w ctl_ta sub out_dir); intros [= <- <-];
          eexists; (split; [reflexivity|]); repeat constructor.
      * destruct (subsample_ta_se w ctl_ta sub out_dir); intros [= <- <-];
          eexists; (split; [reflexivity|]); repeat constructor.
    + rewrite bind_ret. intros [= <- <-]. exists []. rewrite app_nil_r.
      split; [reflexivity|constructor].
  - intros [= <- <-]. exists []. rewrite app_nil_r. split; [reflexivity|constructor].
Qed.

(** Whatever [macs2] does, it only appends calls, none of them the
    verification. *)
Lemma macs2_extends (w : world) (ta ctl_ta chrsz gensz pval_thresh : string)
    (shift fraglen cap_num_peak ctl_subsample : Z) (ctl_paired_end : bool)
    (out_dir : string) (tr0 tr : list call) (r : option string) :
  macs2 w ta ctl_ta chrsz gensz pval_thresh shift fraglen cap_num_peak
        ctl_subsample ctl_paired_end out_dir tr0 = (tr, r) ->
  exists extra : list call,
    tr = (tr0 ++ extra)%list /\ Forall not_verification extra.
Proof.
  unfold macs2. unfold bind at 1.
  destruct (ctl_branch w (basename (strip_ext_ta w ta)) ctl_ta ctl_subsample
              ctl_paired_end out_dir tr0) as [trc rc] eqn:Ec.
  destruct (ctl_branch_extends _ _ _ _ _ _ _ _ _ Ec) as (ex0 & -> & F0).
  assert (G : forall (l : list call) (x : option string),
             Forall not_verification l ->
             ((tr0 ++ ex0 ++ l)%list, x) = (tr, r) ->
             exists extra : list call,
               tr = (tr0 ++ extra)%list /\ Forall not_verification extra).
  { intros l x Fl [= <- <-]. exists (ex0 ++ l)%list.
    split; [reflexivity|]. apply Forall_app. now split. }
  destruct rc as [[ctl' bp]|].
  2:{ intros H. apply (G [] None); [constructor|]. now rewrite app_nil_r. }
  cbn [fst snd].
  rewrite bind_perform.
  destruct (run_shell_cmd w _);
    [|rewrite <- ?app_assoc; apply G; simpl; repeat constructor].
  rewrite bind_perform.
  destruct (getsize w _) as [peaks_size|];
    [|rewrite <- ?app_assoc; apply G; simpl; repeat constructor].
  rewrite bind_perform.
  destruct (run_shell_cmd w _);
    [|rewrite <- ?app_assoc; apply G; simpl; repeat constructor].
  rewrite bind_perform.
  destruct (run_shell_cmd w _);
    [|rewrite <- ?app_assoc; apply G; simpl; repeat constructor].
  rewrite bind_perform.
  destruct (lib_bed_clip w _ _ _);
    [|rewrite <- ?app_assoc; apply G; simpl; repeat constructor].
  rewrite bind_perform.
  destruct (rm_f w _);
    [|rewrite <- ?app_assoc; apply G; simpl; repeat constructor].
  rewrite bind_perform.
  destruct (rm_f w _);
    rewrite <- ?app_assoc; apply G; simpl; repeat constructor.
Qed.

(** ** C3: the shift passed to the peak caller *)

(** C3 does not hold of the code: [macs2] never reads its [shift]
    parameter, and with [--shift 5] on the command line the peak caller is
    started with [--shift 0]. *)
Theorem macs2_shift_is_literal_zero :
  (forall (w : world) (ta ctl_ta chrsz gensz pval_thresh : string)
          (shift shift' fraglen cap_num_peak ctl_subsample : Z)
          (ctl_paired_end : bool) (out_dir : string),
      macs2 w ta ctl_ta chrsz gensz pval_thresh shift fraglen cap_num_peak
            ctl_subsample ctl_paired_end out_dir
      = macs2 w ta ctl_ta chrsz gensz pval_thresh shift' fraglen cap_num_peak
              ctl_subsample ctl_paired_end out_dir) /\
  shift sample_args = 5 /\
  nth_error (fst (run (main (sample_world true) sample_args))) 1
  = Some (Run_shell_cmd
            " macs2 callpeak -t in/rep1.tagAlign.gz  -f BED -n out/rep1 -g hs -p 0.01 --nomodel --shift 0 --extsize 200 --keep-dup all -B --SPMR").
Proof.
  split; [reflexivity|]. split; reflexivity.
Qed.

(** ** C4: cleanup of the intermediates *)

(** C4, as the claim states it, fails when the clipping step raises: the
    sort and the truncation have written both intermediates, the exception
    of [bed_clip] ends the run, and [rm_f] is never called. *)
Lemma main_clip_failure_skips_cleanup :
  run (main (sample_world false) sample_args)
  = ([Mkdir_p "out";
      Run_shell_cmd (cmd0 "in/rep1.tagAlign.gz" "" "out/rep1" "hs" "0.01" 200);
      Getsize "out/rep1_peaks.narrowPeak";
      Run_shell_cmd (cmd1 1 "out/rep1" "out/rep1.pval0.01.500K.narrowPeak.gz.tmp");
      Run_shell_cmd (cmd2 500000 "out/rep1.pval0.01.500K.narrowPeak.gz.tmp"
                          "out/rep1.pval0.01.500K.narrowPeak.gz.tmp2");
      Bed_clip "out/rep1.pval0.01.500K.narrowPeak.gz.tmp2" "hg38.chrom.sizes"
               "out/rep1.pval0.01.500K.narrowPeak.gz"],
     None) /\
  ~ cleanup_called (fst (run (main (sample_world false) sample_args)))
      "out/rep1.pval0.01.500K.narrowPeak.gz".
Proof.
  split; [reflexivity|].
  unfold cleanup_called. vm_compute.
  intros H. repeat (destruct H as [H|H]; [discriminate H|]). exact H.
Qed.

Lemma not_verification_In (l : list call) (f : string) :
  Forall not_verification l -> ~ In (Assert_file_not_empty f) l.
Proof.
  intros F H. rewrite Forall_forall in F. exact (F _ H).
Qed.

(** C4, amended: on the exit paths on which every step of [macs2] up to
    and including the clipping step succeeded, which are success and the
    verification failure, the two intermediate artifacts are handed to
    [rm_f] right after the clipping step and before [macs2] returns and the
    verification runs.  (When a step of [macs2] raises, the exception leaves
    [macs2] at once.) *)
Theorem main_cleanup_before_verification (w : world) (a : args)
    (tr : list call) (res : option unit) :
  run (main w a) = (tr, res) ->
  (res = Some tt -> exists npeak : string, In (Assert_file_not_empty npeak) tr) /\
  (forall npeak : string,
     In (Assert_file_not_empty npeak) tr ->
     exists tr0 tr1 : list call,
       tr = List.app tr0
              (Bed_clip (npeak ++ ".tmp2") (chrsz a) npeak
               :: Rm_f [npeak ++ ".tmp"; npeak ++ ".tmp2"] :: tr1) /\
       In (Assert_file_not_empty npeak) tr1).
Proof.
  assert (Hc : chrsz (parse_arguments a) = chrsz a).
  { unfold parse_arguments. now destruct (_ =? _)%nat. }
  unfold run, main. rewrite bind_perform, <- Hc.
  set (a' := parse_arguments a).
  destruct (mkdir_p w (out_dir a')).
  2:{ intros [= <- <-]. split; [discriminate|].
      intros np [E|[]]; discriminate. }
  unfold bind at 1. unfold index at 1.
  destruct (nth_error (tas a') 0) as [ta|].
  2:{ intros [= <- <-]. split; [discriminate|].
      intros np [E|[]]; discriminate. }
  unfold bind at 1. unfold index at 1.
  destruct (nth_error (tas a') 1) as [ctl_ta|].
  2:{ intros [= <- <-]. split; [discriminate|].
      intros np [E|[]]; discriminate. }
  unfold bind at 1.
  destruct (macs2 w ta ctl_ta (chrsz a') (gensz a') (pval_thresh a') (shift a')
              (fraglen a') (cap_num_peak a') (ctl_subsample a')
              (ctl_paired_end a') (out_dir a') ([] ++ [Mkdir_p (out_dir a')])%list)
    as [trm [np|]] eqn:Em.
  - destruct (macs2_extends _ _ _ _ _ _ _ _ _ _ _ _ _ _ _ Em) as (ex & Etr & Fex).
    destruct (macs2_returns _ _ _ _ _ _ _ _ _ _ _ _ _ _ _ Em)
      as (trc & ctl' & bp & sz & _ & Enp & Eshape).
    assert (Hno : forall f, ~ In (Assert_file_not_empty f) trm).
    { intros f Hin. rewrite Etr in Hin. apply in_app_or in Hin.
      destruct Hin as [[E|[]]|Hin]; [discriminate|].
      exact (not_verification_In ex f Fex Hin). }
    assert (Hgoal : forall rest : list call,
               Forall not_verification rest ->
               forall npeak : string,
                 In (Assert_file_not_empty npeak)
                    (trm ++ Assert_file_not_empty np :: rest)%list ->
                 exists tr0 tr1 : list call,
                   (trm ++ Assert_file_not_empty np :: rest)%list
                   = List.app tr0
                       (Bed_clip (npeak ++ ".tmp2") (chrsz a') npeak
                        :: Rm_f [npeak ++ ".tmp"; npeak ++ ".tmp2"] :: tr1) /\
                   In (Assert_file_not_empty npeak) tr1).
    { intros rest Frest npeak Hin. apply in_app_or in Hin.
      destruct Hin as [Hin|[E|Hin]].
      - now apply Hno in Hin.
      - injection E as <-. rewrite Eshape.
        eexists (trc ++ [_; _; _; _])%list, (_ :: Assert_file_not_empty np :: rest).
        split.
        + rewrite <- !app_assoc. reflexivity.
        + right. now left.
      - now apply (not_verification_In rest npeak) in Hin. }
    rewrite bind_perform.
    destruct (assert_file_not_empty w np).
    + unfold perform. intros [= <- <-]. split.
      * intros _. exists np. apply in_or_app. left. apply in_or_app. right. now left.
      * rewrite <- app_assoc. apply Hgoal. repeat constructor.
    + intros [= <- <-]. split; [discriminate|]. apply Hgoal. constructor.
  - intros [= <- <-]. split; [discriminate|].
    destruct (macs2_extends _ _ _ _ _ _ _ _ _ _ _ _ _ _ _ Em) as (ex & -> & Fex).
    intros npeak Hin. exfalso. apply in_app_or in Hin.
    destruct Hin as [[E|[]]|Hin]; [discriminate|].
    exact (not_verification_In ex npeak Fex Hin).
Qed.

Lemma main_cleanup_before_verification_witness :
  (snd (run (main (sample_world true) sample_args)) = Some tt ->
   exists npeak : string,
     In (Assert_file_not_empty npeak)
        (fst (run (main (sample_world true) sample_args)))) /\
  (forall npeak : string,
     In (Assert_file_not_empty npeak)
        (fst (run (main (sample_world true) sample_args))) ->
     exists tr0 tr1 : list call,
       fst (run (main (sample_world true) sample_args))
       = List.app tr0
           (Bed_clip (npeak ++ ".tmp2") (chrsz sample_args) npeak
            :: Rm_f [npeak ++ ".tmp"; npeak ++ ".tmp2"] :: tr1) /\
       In (Assert_file_not_empty npeak) tr1).
Proof.
  apply (main_cleanup_before_verification (sample_world true) sample_args).
  reflexivity.
Defined.

(** ** C9: the name of the artifact when there is a control *)

(** C9: for every invocation with a control sample, the base name of the
    final artifact starts with the sample base name joined to the control
    base name by [_x_], where the control is the file handed to the peak
    caller (the given one, or its subsample); whenever that combined name
    is longer than 200 characters, [control] stands in for the control base
    name. *)
Theorem macs2_name_with_control (w : world)
    (ta ctl_ta chrsz gensz pval_thresh : string)
    (shift fraglen cap_num_peak ctl_subsample : Z) (ctl_paired_end : bool)
    (out_dir : string) (tr : list call) (npeak : string) :
  ctl_ta <> "" ->
  run (macs2 w ta ctl_ta chrsz gensz pval_thresh shift fraglen cap_num_peak
             ctl_subsample ctl_paired_end out_dir) = (tr, Some npeak) ->
  exists ctl_used basename_prefix : string,
    (ctl_subsample = 0 -> ctl_used = ctl_ta) /\
    In (Run_shell_cmd (cmd0 ta ctl_used (path_join out_dir basename_prefix)
                            gensz pval_thresh fraglen)) tr /\
    basename_prefix
    = (if (200 <? String.length (basename (strip_ext_ta w ta) ++ "_x_"
                                  ++ basename (strip_ext_ta w ctl_used)))%nat
       then basename (strip_ext_ta w ta) ++ "_x_control"
       else basename (strip_ext_ta w ta) ++ "_x_"
            ++ basename (strip_ext_ta w ctl_used)) /\
    npeak = path_join out_dir basename_prefix ++ ".pval" ++ pval_thresh ++ "."
            ++ human_readable_number w cap_num_peak ++ ".narrowPeak.gz".
Proof.
  intros Hctl H. unfold run in H.
  destruct (macs2_returns _ _ _ _ _ _ _ _ _ _ _ _ _ _ _ H)
    as (trc & ctl' & bp & sz & Ec & Enp & Etr).
  apply ctl_branch_returns in Ec.
  destruct Ec as [(Ht & _)|(_ & Ebp & Hsub)].
  { destruct ctl_ta; [congruence|discriminate]. }
  exists ctl', bp. repeat split.
  - intros E0. destruct Hsub as [(_ & _ & E)|(N & _)]; [exact E|contradiction].
  - rewrite Etr. apply in_or_app. right. now left.
  - exact Ebp.
  - rewrite Enp. reflexivity.
Qed.

Lemma macs2_name_with_control_witness :
  exists ctl_used basename_prefix : string,
    (0 = 0 -> ctl_used = "in/ctl1.tagAlign.gz") /\
    In (Run_shell_cmd (cmd0 "in/rep1.tagAlign.gz" ctl_used
                            (path_join "out" basename_prefix) "hs" "0.01" 200))
       (fst (run (macs2 (sample_world true) "in/rep1.tagAlign.gz"
                        "in/ctl1.tagAlign.gz" "hg38.chrom.sizes" "hs" "0.01"
                        0 200 500000 0 false "out"))) /\
    basename_prefix
    = (if (200 <? String.length
                    (basename (strip_ext_ta (sample_world true) "in/rep1.tagAlign.gz")
                     ++ "_x_"
                     ++ basename (strip_ext_ta (sample_world true) ctl_used)))%nat
       then basename (strip_ext_ta (sample_world true) "in/rep1.tagAlign.gz")
            ++ "_x_control"
       else basename (strip_ext_ta (sample_world true) "in/rep1.tagAlign.gz")
            ++ "_x_"
            ++ basename (strip_ext_ta (sample_world true) ctl_used)) /\
    "out/rep1_x_ctl1.pval0.01.500K.narrowPeak.gz"
    = path_join "out" basename_prefix ++ ".pval" ++ "0.01" ++ "."
      ++ human_readable_number (sample_world true) 500000 ++ ".narrowPeak.gz".
Proof.
  apply (macs2_name_with_control (sample_world true) "in/rep1.tagAlign.gz"
           "in/ctl1.tagAlign.gz" "hg38.chrom.sizes" "hs" "0.01" 0 200 500000 0
           false "out").
  - discriminate.
  - reflexivity.
Defined.

(** ** C10: a single TAGALIGN *)

(** C10: when exactly one TAGALIGN path is supplied, [parse_arguments]
    appends an empty-string control, and the whole control branch is
    skipped: no call of the run is a subsampling, the peak caller is started
    without a control argument, and the final artifact is named after the
    sample base name alone. *)
Theorem single_ta_skips_control (w : world) (ta chrsz gensz pval_thresh : string)
    (shift fraglen cap_num_peak ctl_subsample : Z) (ctl_paired_end : bool)
    (out_dir : string) :
  tas (parse_arguments (mkArgs [ta] fraglen shift chrsz gensz pval_thresh
                               cap_num_peak ctl_subsample ctl_paired_end out_dir))
  = [ta; ""] /\
  Forall (control_free w ta gensz pval_thresh fraglen cap_num_peak out_dir)
         (fst (run (main w (mkArgs [ta] fraglen shift chrsz gensz pval_thresh
                                   cap_num_peak ctl_subsample ctl_paired_end
                                   out_dir)))).
Proof.
  split; [reflexivity|].
  unfold run, main, parse_arguments. simpl.
  rewrite bind_perform.
  destruct (mkdir_p w out_dir); [|repeat constructor].
  unfold bind at 1. unfold index at 1. cbn [nth_error].
  unfold bind at 1. unfold index at 1. cbn [nth_error].
  unfold macs2, ctl_branch. cbn [truthy].
  unfold bind at 1. unfold bind at 1. cbn [ret fst snd].
  rewrite bind_perform.
  destruct (run_shell_cmd w _); [|now repeat constructor].
  rewrite bind_perform.
  destruct (getsize w _) as [sz|]; [|now repeat constructor].
  rewrite bind_perform.
  destruct (run_shell_cmd w _); [|now repeat constructor].
  rewrite bind_perform.
  destruct (run_shell_cmd w _); [|now repeat constructor].
  rewrite bind_perform.
  destruct (lib_bed_clip w _ _ _); [|now repeat constructor].
  rewrite bind_perform.
  destruct (rm_f w _); [|now repeat constructor].
  rewrite bind_perform.
  destruct (rm_f w _); [|now repeat constructor].
  cbn [ret]. rewrite bind_perform.
  destruct (assert_file_not_empty w _); now repeat constructor.
Qed.

(** * Further properties of the pipeline *)

(** ** The rows between the raw file and the truncated file *)

Lemma sort_k8gr_order_independent_witness :
  map line (sort_k8gr rows_tied) = map line (sort_k8gr (rev rows_tied)).
Proof.
  apply (sort_k8gr_order_independent rows_tied (rev rows_tied)).
  unfold rows_tied. simpl. apply perm_swap.
Defined.

Lemma awk_record_normalized (NR : Z) (r : narrowPeak) :
  normalized_from r (awk_record NR r).
Proof.
  unfold normalized_from, awk_record; simpl.
  destruct (Z.ltb_spec (chromStart r) 0), (Z.ltb_spec (chromEnd r) 0);
    repeat split; lia.
Qed.

Lemma cmd1_rows_nth_error_inv (raw : list narrowPeak) (i : nat) (r' : narrowPeak) :
  nth_error (cmd1_rows raw) i = Some r' ->
  exists r : narrowPeak,
    nth_error (sort_k8gr raw) i = Some r /\ r' = awk_record (1 + Z.of_nat i) r.
Proof. apply awk_from_nth_error_inv. Qed.


Lemma cmd1_rows_length (raw : list narrowPeak) :
  List.length (cmd1_rows raw) = List.length raw.
Proof.
  unfold cmd1_rows, awk_script. rewrite awk_from_length.
  symmetry. apply Permutation_length, sort_k8gr_perm.
Qed.

(** X2: normalization keeps every coordinate out of the negative range:
    each row of the sorted, normalized file has [start >= 0] and
    [end >= 0], whatever the raw file held. *)
Theorem cmd1_rows_coordinates_nonneg (raw : list narrowPeak) :
  Forall (fun r : narrowPeak => 0 <= chromStart r /\ 0 <= chromEnd r)
         (cmd1_rows raw).
Proof.
  apply Forall_forall. intros r' Hin.
  destruct (In_nth_error _ _ Hin) as [i Hi].
  destruct (cmd1_rows_nth_error_inv raw i r' Hi) as (r & _ & ->).
  destruct (awk_record_normalized (1 + Z.of_nat i) r)
    as (_ & _ & _ & _ & _ & _ & Hs & He).
  rewrite Hs, He. lia.
Qed.





(** X5: with a cap that is not negative and that [head -n] reads (within
    64 bits) the truncated file has exactly
    [min(cap_num_peak, number of raw rows)] rows: a cap of 0 leaves no row,
    and a cap that is at least the number of raw rows truncates nothing. *)
Theorem cmd2_rows_count (cap_num_peak : Z) (raw : list narrowPeak) :
  0 <= cap_num_peak -> head_count cap_num_peak ->
  List.length (cmd2_rows cap_num_peak raw)
  = Nat.min (Z.to_nat cap_num_peak) (List.length raw) /\
  (cap_num_peak = 0 -> cmd2_rows cap_num_peak raw = []) /\
  (Z.of_nat (List.length raw) <= cap_num_peak ->
   cmd2_rows cap_num_peak raw = cmd1_rows raw).
Proof.
  intros Hcap _. unfold cmd2_rows, head_n.
  destruct (Z.leb_spec 0 cap_num_peak); [|lia]. split; [|split].
  - now rewrite length_firstn, cmd1_rows_length.
  - intros ->. reflexivity.
  - intros Hlen. apply firstn_all2. rewrite cmd1_rows_length. lia.
Qed.

Lemma cmd2_rows_count_witness :
  List.length (cmd2_rows 2 rows_scenario)
  = Nat.min (Z.to_nat 2) (List.length rows_scenario) /\
  (2 = 0 -> cmd2_rows 2 rows_scenario = []) /\
  (Z.of_nat (List.length rows_scenario) <= 2 ->
   cmd2_rows 2 rows_scenario = cmd1_rows rows_scenario).
Proof.
  apply (cmd2_rows_count 2 rows_scenario); [lia|split; reflexivity].
Defined.



(** ** [parse_arguments] and the paths [main] reads *)

(** X7: [parse_arguments] leaves [main] two paths to read.  Given at least
    one TAGALIGN path, as [nargs='+'] guarantees, the list it returns starts
    with that path and has a second element; a list of two or more paths is
    returned as it is, no other option is changed, and a second application
    changes nothing. *)
Theorem parse_arguments_two_paths (a : args) :
  tas a <> [] ->
  (exists (ta ctl_ta : string) (rest : list string),
     tas (parse_arguments a) = ta :: ctl_ta :: rest /\
     nth_error (tas a) 0 = Some ta) /\
  ((2 <= List.length (tas a))%nat -> parse_arguments a = a) /\
  parse_arguments (parse_arguments a) = parse_arguments a /\
  (fraglen (parse_arguments a), shift (parse_arguments a),
   chrsz (parse_arguments a), gensz (parse_arguments a),
   pval_thresh (parse_arguments a), cap_num_peak (parse_arguments a),
   ctl_subsample (parse_arguments a), ctl_paired_end (parse_arguments a),
   out_dir (parse_arguments a))
  = (fraglen a, shift a, chrsz a, gensz a, pval_thresh a, cap_num_peak a,
     ctl_subsample a, ctl_paired_end a, out_dir a).
Proof.
  intros Hne. destruct a as [l f s c g p n cs pe o]. cbn [tas] in *.
  destruct l as [|ta [|ctl rest]]; [congruence| |].
  - repeat split; try reflexivity. 
    + exists ta, "", []. now split.
    + cbn. lia.
  - repeat split; try reflexivity. exists ta, ctl, rest. now split.
Qed.

Lemma parse_arguments_two_paths_witness :
  (exists (ta ctl_ta : string) (rest : list string),
     tas (parse_arguments sample_args) = ta :: ctl_ta :: rest /\
     nth_error (tas sample_args) 0 = Some ta) /\
  ((2 <= List.length (tas sample_args))%nat ->
   parse_arguments sample_args = sample_args) /\
  parse_arguments (parse_arguments sample_args) = parse_arguments sample_args /\
  (fraglen (parse_arguments sample_args), shift (parse_arguments sample_args),
   chrsz (parse_arguments sample_args), gensz (parse_arguments sample_args),
   pval_thresh (parse_arguments sample_args),
   cap_num_peak (parse_arguments sample_args),
   ctl_subsample (parse_arguments sample_args),
   ctl_paired_end (parse_arguments sample_args),
   out_dir (parse_arguments sample_args))
  = (fraglen sample_args, shift sample_args, chrsz sample_args,
     gensz sample_args, pval_thresh sample_args, cap_num_peak sample_args,
     ctl_subsample sample_args, ctl_paired_end sample_args,
     out_dir sample_args).
Proof.
  apply (parse_arguments_two_paths sample_args). discriminate.
Defined.

(** X8: [main] reads the first two TAGALIGN paths and no other.  Paths
    after the second, which [nargs='+'] accepts, change nothing: the run
    makes the same calls with the same outcome as the run on the first two
    paths alone. *)
Theorem main_ignores_further_paths (w : world) (ta ctl_ta : string)
    (rest : list string) (fraglen shift : Z) (chrsz gensz pval_thresh : string)
    (cap_num_peak ctl_subsample : Z) (ctl_paired_end : bool) (out_dir : string) :
  run (main w (mkArgs (ta :: ctl_ta :: rest) fraglen shift chrsz gensz
                      pval_thresh cap_num_peak ctl_subsample ctl_paired_end
                      out_dir))
  = run (main w (mkArgs [ta; ctl_ta] fraglen shift chrsz gensz pval_thresh
                        cap_num_peak ctl_subsample ctl_paired_end out_dir)).
Proof. reflexivity. Qed.

(** ** Exceptions *)

Lemma fails_fast_ret {A : Type} (w : world) (a : A) : fails_fast_from w (ret a).
Proof. intros tr H. exact H. Qed.

Lemma fails_fast_perform {A : Type} (w : world) (c : call) (answer : option A) :
  raises w c = is_none answer -> fails_fast_from w (perform c answer).
Proof.
  intros E tr H. unfold fails_fast, perform. cbn [fst snd].
  destruct answer; simpl in E.
  - apply Forall_app. split; [exact H|]. now constructor.
  - exists tr, c. now repeat split.
Qed.

Lemma fails_fast_bind {A B : Type} (w : world) (m : M A) (k : A -> M B) :
  fails_fast_from w m -> (forall a : A, fails_fast_from w (k a)) ->
  fails_fast_from w (bind m k).
Proof.
  intros Hm Hk tr H. unfold bind. specialize (Hm tr H).
  destruct (m tr) as [tr' [a|]]; [|exact Hm]. now apply Hk.
Qed.

Lemma ctl_branch_fails_fast (w : world) (bta ctl_ta : string) (sub : Z) (pe : bool)
    (out_dir : string) :
  fails_fast_from w (ctl_branch w bta ctl_ta sub pe out_dir).
Proof.
  unfold ctl_branch. destruct (truthy ctl_ta); [|apply fails_fast_ret].
  apply fails_fast_bind; [|intros; apply fails_fast_ret].
  destruct (negb (sub =? 0)); [|apply fails_fast_ret].
  destruct pe; now apply fails_fast_perform.
Qed.

Lemma macs2_fails_fast (w : world) (ta ctl_ta chrsz gensz pval_thresh : string)
    (shift fraglen cap_num_peak ctl_subsample : Z) (ctl_paired_end : bool)
    (out_dir : string) :
  fails_fast_from w (macs2 w ta ctl_ta chrsz gensz pval_thresh shift fraglen
                           cap_num_peak ctl_subsample ctl_paired_end out_dir).
Proof.
  unfold macs2.
  apply fails_fast_bind; [apply ctl_branch_fails_fast|intros cb].
  repeat (apply fails_fast_bind;
          [now apply fails_fast_perform|intros ?]).
  apply fails_fast_ret.
Qed.

(** X9: no exception is swallowed and nothing is retried.  Given at least
    one TAGALIGN path, a run of [main] either returns, and then every call
    it made returned, or raises, and then the call that raised is the last
    call of the run and every call before it returned. *)
Theorem main_fails_fast (w : world) (a : args) :
  tas a <> [] -> fails_fast w (run (main w a)).
Proof.
  intros Hne.
  assert (Et : exists (ta ctl : string) (rest : list string),
             tas (parse_arguments a) = ta :: ctl :: rest).
  { destruct a as [l f s c g p n cs pe o]. cbn [tas] in Hne.
    destruct l as [|ta [|ctl rest]]; [congruence| |].
    - now exists ta, "", [].
    - now exists ta, ctl, rest. }
  destruct Et as (ta & ctl & rest & Et).
  unfold run, main.
  apply fails_fast_bind; [now apply fails_fast_perform| |constructor].
  intros _. rewrite Et. unfold index.
  apply fails_fast_bind; [intros tr H; exact H|intros ta'].
  apply fails_fast_bind; [intros tr H; exact H|intros ctl'].
  apply fails_fast_bind; [apply macs2_fails_fast|intros npeak].
  apply fails_fast_bind; [now apply fails_fast_perform|intros _].
  now apply fails_fast_perform.
Qed.

Lemma main_fails_fast_witness :
  fails_fast (sample_world false) (run (main (sample_world false) sample_args)).
Proof.
  apply (main_fails_fast (sample_world false) sample_args). discriminate.
Defined.

(** ** Text lemmas for names and patterns *)

Lemma string_app_assoc (a b c : string) : (a ++ b) ++ c = a ++ (b ++ c).
Proof. induction a as [|x a IH]; simpl; [reflexivity|now rewrite IH]. Qed.

Lemma string_app_length (a b : string) :
  String.length (a ++ b) = (String.length a + String.length b)%nat.
Proof. induction a as [|x a IH]; simpl; [reflexivity|now rewrite IH]. Qed.

Lemma string_app_neq (a b : string) : b <> "" -> a ++ b <> a.
Proof.
  intros Hb E. apply (f_equal String.length) in E.
  rewrite string_app_length in E. destruct b; [congruence|simpl in E; lia].
Qed.

Lemma string_app_last (a b : string) (c d : ascii) :
  a ++ String c "" = b ++ String d "" -> a = b /\ c = d.
Proof.
  revert b. induction a as [|x a IH]; intros [|y b]; simpl; intros E.
  - injection E as ->. now split.
  - injection E as _ E. destruct b; discriminate.
  - injection E as _ E. destruct a; discriminate.
  - injection E as -> E. destruct (IH b E) as [-> ->]. now split.
Qed.

Lemma prefix_app (p s : string) : String.prefix p (p ++ s) = true.
Proof.
  induction p as [|x p IH]; simpl; [now destruct s|].
  destruct (ascii_dec x x); [exact IH|contradiction].
Qed.

Lemma prefix_app_diff (p s1 s2 : string) (c1 c2 : ascii) :
  c1 <> c2 -> String.prefix (p ++ String c1 s1) (p ++ String c2 s2) = false.
Proof.
  intros Hc. induction p as [|x p IH]; simpl.
  - destruct (ascii_dec c1 c2); [contradiction|reflexivity].
  - destruct (ascii_dec x x); [exact IH|contradiction].
Qed.

Lemma has_slash_app (a b : string) :
  has_slash (a ++ b) = has_slash a || has_slash b.
Proof.
  induction a as [|x a IH]; simpl; [reflexivity|].
  now rewrite IH, orb_assoc.
Qed.

Lemma has_slash_basename (p : string) : has_slash (basename p) = false.
Proof.
  induction p as [|x p IH]; [reflexivity|].
  cbn [basename]. destruct (has_slash (String x p)) eqn:E; [exact IH|exact E].
Qed.

Lemma path_join_slash_free (a b : string) :
  has_slash b = false ->
  path_join a b
  = a ++ (if negb (truthy a) || ends_with_slash a then "" else "/") ++ b.
Proof.
  intros H. assert (E : path_join a b
    = if negb (truthy a) || ends_with_slash a then a ++ b else a ++ "/" ++ b).
  { destruct b as [|c b]; [reflexivity|].
    simpl in H. apply orb_false_elim in H. destruct H as [H _].
    destruct c as [[] [] [] [] [] [] [] []]; try reflexivity; discriminate H. }
  rewrite E. now destruct (negb (truthy a) || ends_with_slash a).
Qed.

Lemma prefix_x_ctl_shape (bta bctl : string) :
  exists x : string,
    prefix_x_ctl bta bctl = bta ++ "_x_" ++ x /\
    (has_slash bctl = false -> has_slash x = false).
Proof.
  unfold prefix_x_ctl. destruct (_ <? _)%nat.
  - exists "control". now split.
  - exists bctl. now split.
Qed.

(** The base name [ctl_branch] returns holds no slash: it is the base name
    of the sample, alone or followed by [_x_] and a slash-free name. *)
Lemma ctl_branch_base_name (w : world) (ta ctl_ta : string) (sub : Z) (pe : bool)
    (out_dir : string) (tr0 tr : list call) (ctl' bp : string) :
  ctl_branch w (basename (strip_ext_ta w ta)) ctl_ta sub pe out_dir tr0
  = (tr, Some (ctl', bp)) ->
  has_slash bp = false /\
  (truthy ctl_ta = false /\ bp = basename (strip_ext_ta w ta) \/
   truthy ctl_ta = true /\
   exists x : string,
     bp = basename (strip_ext_ta w ta) ++ "_x_" ++ x /\ has_slash x = false).
Proof.
  intros H. apply ctl_branch_returns in H.
  destruct H as [(Ht & _ & _ & ->)|(Ht & -> & _)].
  - split; [apply has_slash_basename|]. left. now split.
  - destruct (prefix_x_ctl_shape (basename (strip_ext_ta w ta))
                (basename (strip_ext_ta w ctl'))) as (x & -> & Hx).
    specialize (Hx (has_slash_basename _)). split.
    + rewrite !has_slash_app, has_slash_basename, Hx. reflexivity.
    + right. split; [exact Ht|]. exists x. now split.
Qed.

(** X10: the final artifact is written into [out_dir] under a name that
    starts with the base name of the sample, whatever directories the sample
    and the control came from: its path is [out_dir], a slash unless
    [out_dir] is empty or ends with one, a name without any slash, and the
    suffix made of the threshold and the cap. *)
Theorem macs2_artifact_in_out_dir (w : world)
    (ta ctl_ta chrsz gensz pval_thresh : string)
    (shift fraglen cap_num_peak ctl_subsample : Z) (ctl_paired_end : bool)
    (out_dir : string) (tr : list call) (npeak : string) :
  run (macs2 w ta ctl_ta chrsz gensz pval_thresh shift fraglen cap_num_peak
             ctl_subsample ctl_paired_end out_dir) = (tr, Some npeak) ->
  exists rest : string,
    has_slash (basename (strip_ext_ta w ta) ++ rest) = false /\
    npeak = out_dir
            ++ (if negb (truthy out_dir) || ends_with_slash out_dir then "" else "/")
            ++ (basename (strip_ext_ta w ta) ++ rest)
            ++ ".pval" ++ pval_thresh ++ "."
            ++ human_readable_number w cap_num_peak ++ ".narrowPeak.gz".
Proof.
  intros H. unfold run in H.
  destruct (macs2_returns _ _ _ _ _ _ _ _ _ _ _ _ _ _ _ H)
    as (trc & ctl' & bp & sz & Ec & -> & _).
  destruct (ctl_branch_base_name _ _ _ _ _ _ _ _ _ _ Ec) as [Hbp Hshape].
  assert (G : exists rest : string, bp = basename (strip_ext_ta w ta) ++ rest).
  { destruct Hshape as [(_ & ->)|(_ & x & -> & _)].
    - exists "". clear. induction (basename (strip_ext_ta w ta)) as [|c s IH];
        simpl; [reflexivity|now rewrite <- IH].
    - eexists; reflexivity. }
  destruct G as [rest ->]. exists rest. split; [exact Hbp|].
  unfold npeak_name. rewrite (path_join_slash_free _ _ Hbp).
  rewrite !string_app_assoc. reflexivity.
Qed.

Lemma macs2_artifact_in_out_dir_witness :
  exists rest : string,
    has_slash (basename (strip_ext_ta (sample_world true) "in/rep1.tagAlign.gz")
               ++ rest) = false /\
    "out/rep1_x_ctl1.pval0.01.500K.narrowPeak.gz"
    = "out"
      ++ (if negb (truthy "out") || ends_with_slash "out" then "" else "/")
      ++ (basename (strip_ext_ta (sample_world true) "in/rep1.tagAlign.gz") ++ rest)
      ++ ".pval" ++ "0.01" ++ "."
      ++ human_readable_number (sample_world true) 500000 ++ ".narrowPeak.gz".
Proof.
  apply (macs2_artifact_in_out_dir (sample_world true) "in/rep1.tagAlign.gz"
           "in/ctl1.tagAlign.gz" "hg38.chrom.sizes" "hs" "0.01" 0 200 500000 0
           false "out"
           (fst (run (macs2 (sample_world true) "in/rep1.tagAlign.gz"
                            "in/ctl1.tagAlign.gz" "hg38.chrom.sizes" "hs" "0.01"
                            0 200 500000 0 false "out")))).
  reflexivity.
Defined.

(** ** Cleanup and the names it is given *)

Lemma ctl_branch_only_subsamples (w : world) (bta ctl_ta : string) (sub : Z)
    (pe : bool) (out_dir : string) (tr : list call)
    (r : option (string * string)) :
  ctl_branch w bta ctl_ta sub pe out_dir [] = (tr, r) ->
  Forall is_subsample tr.
Proof.
  unfold ctl_branch. destruct (truthy ctl_ta).
  - destruct (negb (sub =? 0)).
    + destruct pe; rewrite bind_perform.
      * destruct (subsample_ta_pe w ctl_ta sub out_dir); intros [= <- <-];
          repeat constructor.
      * destruct (subsample_ta_se w ctl_ta sub out_dir); intros [= <- <-];
          repeat constructor.
    + rewrite bind_ret. intros [= <- <-]. constructor.
  - intros [= <- <-]. constructor.
Qed.

(** The calls of [rm_f] in a run of [macs2] that returns: the two
    intermediates, and the pattern [prefix_*]. *)
Lemma macs2_rm_f_calls (w : world) (ta ctl_ta chrsz gensz pval_thresh : string)
    (shift fraglen cap_num_peak ctl_subsample : Z) (ctl_paired_end : bool)
    (out_dir : string) (tr : list call) (npeak : string) :
  run (macs2 w ta ctl_ta chrsz gensz pval_thresh shift fraglen cap_num_peak
             ctl_subsample ctl_paired_end out_dir) = (tr, Some npeak) ->
  exists prefix suffix : string,
    npeak = prefix ++ String "." suffix /\
    In (Rm_f [(prefix ++ "_") ++ "*"]) tr /\
    forall files : list string,
      In (Rm_f files) tr ->
      files = [npeak ++ ".tmp"; npeak ++ ".tmp2"] \/
      files = [(prefix ++ "_") ++ "*"].
Proof.
  intros H. unfold run in H.
  destruct (macs2_returns _ _ _ _ _ _ _ _ _ _ _ _ _ _ _ H)
    as (trc & ctl' & bp & sz & Ec & Enp & ->).
  apply ctl_branch_only_subsamples in Ec.
  exists (path_join out_dir bp),
         (("pval" ++ pval_thresh) ++ "."
          ++ human_readable_number w cap_num_peak ++ ".narrowPeak.gz").
  split; [exact Enp|]. split.
  - apply in_or_app. right. rewrite string_app_assoc. simpl. tauto.
  - intros files Hin. apply in_app_or in Hin. destruct Hin as [Hin|Hin].
    + rewrite Forall_forall in Ec. destruct (Ec _ Hin).
    + simpl in Hin.
      destruct Hin as [E|[E|[E|[E|[E|[E|[E|[]]]]]]]]; try discriminate E.
      * injection E as <-. now left.
      * injection E as <-. right. now rewrite string_app_assoc.
Qed.

(** X11: the names handed to [rm_f] against the path [macs2] returns, as
    texts.  No name handed to [rm_f] is the path of the final artifact, and
    when a name ends with [*], the text before that [*] is not the beginning
    of the path.  (What a pattern matches once the shell expands it is not
    stated: a sample name that itself holds pattern characters is read as a
    pattern too.) *)
Theorem macs2_rm_f_names_differ_from_artifact (w : world)
    (ta ctl_ta chrsz gensz pval_thresh : string)
    (shift fraglen cap_num_peak ctl_subsample : Z) (ctl_paired_end : bool)
    (out_dir : string) (tr : list call) (npeak : string) :
  run (macs2 w ta ctl_ta chrsz gensz pval_thresh shift fraglen cap_num_peak
             ctl_subsample ctl_paired_end out_dir) = (tr, Some npeak) ->
  forall (files : list string) (f : string),
    In (Rm_f files) tr -> In f files ->
    f <> npeak /\
    (forall stem : string, f = stem ++ "*" -> String.prefix stem npeak = false).
Proof.
  intros H files f Hcall Hf.
  destruct (macs2_rm_f_calls _ _ _ _ _ _ _ _ _ _ _ _ _ _ H)
    as (prefix & suffix & Enp & _ & Hfiles).
  destruct (Hfiles files Hcall) as [-> | ->]; simpl in Hf.
  - destruct Hf as [<-|[<-|[]]]; (split; [now apply string_app_neq|]).
    + intros stem E. exfalso.
      change (npeak ++ ".tmp") with (npeak ++ (".tm" ++ "p")) in E.
      rewrite <- string_app_assoc in E.
      apply string_app_last in E. destruct E as [_ E]. discriminate E.
    + intros stem E. exfalso.
      change (npeak ++ ".tmp2") with (npeak ++ (".tmp" ++ "2")) in E.
      rewrite <- string_app_assoc in E.
      apply string_app_last in E. destruct E as [_ E]. discriminate E.
  - destruct Hf as [<-|[]]. split.
    + rewrite Enp. intros E.
      pose proof (prefix_app_diff prefix "" suffix "_" "." ltac:(discriminate)) as P.
      assert (Q : String.prefix (prefix ++ "_")
                    ((prefix ++ "_") ++ "*") = true) by apply prefix_app.
      rewrite E in Q. congruence.
    + intros stem E. apply string_app_last in E. destruct E as [<- _].
      rewrite Enp. apply prefix_app_diff. discriminate.
Qed.

Lemma macs2_rm_f_names_differ_from_artifact_witness :
  "out/rep1_*" <> "out/rep1.pval0.01.500K.narrowPeak.gz" /\
  (forall stem : string,
     "out/rep1_*" = stem ++ "*" ->
     String.prefix stem "out/rep1.pval0.01.500K.narrowPeak.gz" = false).
Proof.
  apply (macs2_rm_f_names_differ_from_artifact (sample_world true) "in/rep1.tagAlign.gz"
           "" "hg38.chrom.sizes" "hs" "0.01" 5 200 500000 0 false "out"
           (fst (run (macs2 (sample_world true) "in/rep1.tagAlign.gz" ""
                            "hg38.chrom.sizes" "hs" "0.01" 5 200 500000 0 false
                            "out")))
           "out/rep1.pval0.01.500K.narrowPeak.gz" eq_refl
           ["out/rep1_*"] "out/rep1_*").
  - do 6 right. left. reflexivity.
  - left. reflexivity.
Defined.

(** X12: the cleanup pattern of a run without control reaches the runs of
    the same sample with a control.  When [macs2] has run for a sample
    without control and for the same sample with a control into the same
    [out_dir], the run without control handed [rm_f] a pattern whose fixed
    part (the text before the final [*]) is the beginning of the path of the
    artifact the run with the control returned. *)
Theorem macs2_pattern_reaches_control_runs (w : world)
    (ta ctl_ta out_dir : string)
    (chrsz gensz pval_thresh chrsz' gensz' pval_thresh' : string)
    (shift fraglen cap_num_peak ctl_subsample : Z) (ctl_paired_end : bool)
    (shift' fraglen' cap_num_peak' ctl_subsample' : Z) (ctl_paired_end' : bool)
    (tr tr' : list call) (npeak npeak' : string) :
  ctl_ta <> "" ->
  run (macs2 w ta "" chrsz gensz pval_thresh shift fraglen cap_num_peak
             ctl_subsample ctl_paired_end out_dir) = (tr, Some npeak) ->
  run (macs2 w ta ctl_ta chrsz' gensz' pval_thresh' shift' fraglen'
             cap_num_peak' ctl_subsample' ctl_paired_end' out_dir)
  = (tr', Some npeak') ->
  exists stem : string,
    In (Rm_f [stem ++ "*"]) tr /\ String.prefix stem npeak' = true.
Proof.
  intros Hctl H H'. unfold run in H, H'.
  destruct (macs2_returns _ _ _ _ _ _ _ _ _ _ _ _ _ _ _ H)
    as (trc & c0 & bp & sz & Ec & _ & ->).
  destruct (macs2_returns _ _ _ _ _ _ _ _ _ _ _ _ _ _ _ H')
    as (trc' & c1 & bp' & sz' & Ec' & -> & _).
  destruct (ctl_branch_base_name _ _ _ _ _ _ _ _ _ _ Ec)
    as [Hbp [(_ & ->)|(Ht & _)]]; [|discriminate Ht].
  destruct (ctl_branch_base_name _ _ _ _ _ _ _ _ _ _ Ec')
    as [Hbp' [(Ht & _)|(_ & x & -> & Hx)]].
  { destruct ctl_ta; [congruence|discriminate Ht]. }
  exists (path_join out_dir (basename (strip_ext_ta w ta)) ++ "_"). split.
  - apply in_or_app. right. rewrite string_app_assoc. simpl. tauto.
  - unfold npeak_name.
    rewrite (path_join_slash_free _ _ Hbp), (path_join_slash_free _ _ Hbp').
    set (sep := if negb (truthy out_dir) || ends_with_slash out_dir
                then "" else "/").
    set (b := basename (strip_ext_ta w ta)).
    match goal with
    | |- String.prefix ?stem ?path = true =>
        replace path
          with (stem ++ "x_" ++ x ++ "." ++ ("pval" ++ pval_thresh') ++ "."
                ++ human_readable_number w cap_num_peak' ++ ".narrowPeak.gz")
          by (rewrite !string_app_assoc; reflexivity)
    end.
    apply prefix_app.
Qed.

Lemma macs2_pattern_reaches_control_runs_witness :
  exists stem : string,
    In (Rm_f [stem ++ "*"])
       (fst (run (macs2 (sample_world true) "in/rep1.tagAlign.gz" ""
                        "hg38.chrom.sizes" "hs" "0.01" 5 200 500000 0 false
                        "out"))) /\
    String.prefix stem "out/rep1_x_ctl1.pval0.01.500K.narrowPeak.gz" = true.
Proof.
  apply (macs2_pattern_reaches_control_runs (sample_world true)
           "in/rep1.tagAlign.gz" "in/ctl1.tagAlign.gz" "out"
           "hg38.chrom.sizes" "hs" "0.01" "hg38.chrom.sizes" "hs" "0.01"
           5 200 500000 0 false 0 200 500000 0 false
           (fst (run (macs2 (sample_world true) "in/rep1.tagAlign.gz" ""
                            "hg38.chrom.sizes" "hs" "0.01" 5 200 500000 0 false
                            "out")))
           (fst (run (macs2 (sample_world true) "in/rep1.tagAlign.gz"
                            "in/ctl1.tagAlign.gz" "hg38.chrom.sizes" "hs" "0.01"
                            0 200 500000 0 false "out")))
           "out/rep1.pval0.01.500K.narrowPeak.gz").
  - discriminate.
  - reflexivity.
  - reflexivity.
Defined.

(** ** The control and the sort buffer *)

(** X13: which control the peak caller gets.  With a control and
    [ctl_subsample = 0] the first call of [macs2] starts the peak caller on
    the control as given.  With [ctl_subsample] set, the first call is the
    subsampling of the control, paired-end or single-end as
    [ctl_paired_end] says; if it raises, nothing else is called; if it
    returns a file, the next call starts the peak caller on that file, and
    the outputs are named after it. *)
Theorem macs2_control_for_caller (w : world)
    (ta ctl_ta chrsz gensz pval_thresh : string)
    (shift fraglen cap_num_peak ctl_subsample : Z) (ctl_paired_end : bool)
    (out_dir : string) :
  ctl_ta <> "" ->
  if ctl_subsample =? 0 then
    nth_error
      (fst (run (macs2 w ta ctl_ta chrsz gensz pval_thresh shift fraglen
                       cap_num_peak ctl_subsample ctl_paired_end out_dir))) 0
    = Some (Run_shell_cmd
              (cmd0 ta ctl_ta
                    (path_join out_dir
                       (prefix_x_ctl (basename (strip_ext_ta w ta))
                                     (basename (strip_ext_ta w ctl_ta))))
                    gensz pval_thresh fraglen))
  else
    nth_error
      (fst (run (macs2 w ta ctl_ta chrsz gensz pval_thresh shift fraglen
                       cap_num_peak ctl_subsample ctl_paired_end out_dir))) 0
    = Some (if ctl_paired_end
            then Subsample_ta_pe ctl_ta ctl_subsample out_dir
            else Subsample_ta_se ctl_ta ctl_subsample out_dir) /\
    match (if ctl_paired_end
           then subsample_ta_pe w ctl_ta ctl_subsample out_dir
           else subsample_ta_se w ctl_ta ctl_subsample out_dir) with
    | None =>
        run (macs2 w ta ctl_ta chrsz gensz pval_thresh shift fraglen
                   cap_num_peak ctl_subsample ctl_paired_end out_dir)
        = ([if ctl_paired_end
            then Subsample_ta_pe ctl_ta ctl_subsample out_dir
            else Subsample_ta_se ctl_ta ctl_subsample out_dir], None)
    | Some subsampled =>
        nth_error
          (fst (run (macs2 w ta ctl_ta chrsz gensz pval_thresh shift fraglen
                           cap_num_peak ctl_subsample ctl_paired_end out_dir))) 1
        = Some (Run_shell_cmd
                  (cmd0 ta subsampled
                        (path_join out_dir
                           (prefix_x_ctl (basename (strip_ext_ta w ta))
                                         (basename (strip_ext_ta w subsampled))))
                        gensz pval_thresh fraglen))
    end.
Proof.
  intros Hctl. destruct ctl_ta as [|c0 ctl]; [congruence|].
  unfold run, macs2, ctl_branch. cbn [truthy].
  unfold bind, perform, ret.
  destruct (ctl_subsample =? 0); cbn [negb fst snd].
  - answer_all; reflexivity.
  - destruct ctl_paired_end.
    + destruct (subsample_ta_pe w (String c0 ctl) ctl_subsample out_dir) as [s|];
        cbn [fst snd]; [|split; reflexivity].
      answer_all; split; reflexivity.
    + destruct (subsample_ta_se w (String c0 ctl) ctl_subsample out_dir) as [s|];
        cbn [fst snd]; [|split; reflexivity].
      answer_all; split; reflexivity.
Qed.

Lemma macs2_control_for_caller_witness :
  if 1000 =? 0 then
    nth_error
      (fst (run (macs2 (sample_world true) "in/rep1.tagAlign.gz"
                       "in/ctl1.tagAlign.gz" "hg38.chrom.sizes" "hs" "0.01" 0
                       200 500000 1000 true "out"))) 0
    = Some (Run_shell_cmd
              (cmd0 "in/rep1.tagAlign.gz" "in/ctl1.tagAlign.gz"
                    (path_join "out"
                       (prefix_x_ctl
                          (basename (strip_ext_ta (sample_world true)
                                                  "in/rep1.tagAlign.gz"))
                          (basename (strip_ext_ta (sample_world true)
                                                  "in/ctl1.tagAlign.gz"))))
                    "hs" "0.01" 200))
  else
    nth_error
      (fst (run (macs2 (sample_world true) "in/rep1.tagAlign.gz"
                       "in/ctl1.tagAlign.gz" "hg38.chrom.sizes" "hs" "0.01" 0
                       200 500000 1000 true "out"))) 0
    = Some (if true
            then Subsample_ta_pe "in/ctl1.tagAlign.gz" 1000 "out"
            else Subsample_ta_se "in/ctl1.tagAlign.gz" 1000 "out") /\
    match (if true
           then subsample_ta_pe (sample_world true) "in/ctl1.tagAlign.gz" 1000 "out"
           else subsample_ta_se (sample_world true) "in/ctl1.tagAlign.gz" 1000 "out")
    with
    | None =>
        run (macs2 (sample_world true) "in/rep1.tagAlign.gz"
                   "in/ctl1.tagAlign.gz" "hg38.chrom.sizes" "hs" "0.01" 0 200
                   500000 1000 true "out")
        = ([if true
            then Subsample_ta_pe "in/ctl1.tagAlign.gz" 1000 "out"
            else Subsample_ta_se "in/ctl1.tagAlign.gz" 1000 "out"], None)
    | Some subsampled =>
        nth_error
          (fst (run (macs2 (sample_world true) "in/rep1.tagAlign.gz"
                           "in/ctl1.tagAlign.gz" "hg38.chrom.sizes" "hs" "0.01"
                           0 200 500000 1000 true "out"))) 1
        = Some (Run_shell_cmd
                  (cmd0 "in/rep1.tagAlign.gz" subsampled
                        (path_join "out"
                           (prefix_x_ctl
                              (basename (strip_ext_ta (sample_world true)
                                                      "in/rep1.tagAlign.gz"))
                              (basename (strip_ext_ta (sample_world true)
                                                      subsampled))))
                        "hs" "0.01" 200))
    end.
Proof.
  apply (macs2_control_for_caller (sample_world true) "in/rep1.tagAlign.gz"
           "in/ctl1.tagAlign.gz" "hg38.chrom.sizes" "hs" "0.01" 0 200 500000
           1000 true "out").
  discriminate.
Defined.

Lemma ceil_div_bounds (n d : Z) :
  0 < d -> d * (ceil_div n d - 1) < n <= d * ceil_div n d.
Proof.
  intros Hd. unfold ceil_div.
  pose proof (Z.div_mod (- n) d ltac:(lia)) as E.
  pose proof (Z.mod_pos_bound (- n) d Hd) as B. nia.
Qed.

(** X14: the buffer asked of [sort].  In a world whose files are smaller
    than [2^52] bytes, when [macs2] returns, [sort] was run on the file
    [<prefix>_peaks.narrowPeak] of the prefix the peak caller was given with
    [-n], after the size of that file was read, and its [-S] option is the
    least whole number of MiB that holds twice that size (0 for an empty
    file). *)
Theorem macs2_sort_buffer (w : world) (ta ctl_ta chrsz gensz pval_thresh : string)
    (shift fraglen cap_num_peak ctl_subsample : Z) (ctl_paired_end : bool)
    (out_dir : string) (tr : list call) (npeak : string) :
  (forall (path : string) (size : Z),
     getsize w path = Some size -> file_size size) ->
  run (macs2 w ta ctl_ta chrsz gensz pval_thresh shift fraglen cap_num_peak
             ctl_subsample ctl_paired_end out_dir) = (tr, Some npeak) ->
  exists (ctl_used prefix : string) (size sort_mem_mb : Z),
    In (Run_shell_cmd (cmd0 ta ctl_used prefix gensz pval_thresh fraglen)) tr /\
    getsize w (prefix ++ "_peaks.narrowPeak") = Some size /\ file_size size /\
    In (Run_shell_cmd (cmd1 sort_mem_mb prefix (npeak ++ ".tmp"))) tr /\
    1048576 * (sort_mem_mb - 1) < 2 * size <= 1048576 * sort_mem_mb /\
    (size = 0 -> sort_mem_mb = 0).
Proof.
  intros Hsize. unfold run, macs2. unfold bind at 1.
  destruct (ctl_branch w (basename (strip_ext_ta w ta)) ctl_ta ctl_subsample
              ctl_paired_end out_dir []) as [trc [[ctl' bp]|]];
    [|discriminate].
  cbn [fst snd]. rewrite bind_perform.
  destruct (run_shell_cmd w _); [|discriminate]. rewrite bind_perform.
  destruct (getsize w _) as [size|] eqn:Eg; [|discriminate]. rewrite bind_perform.
  destruct (run_shell_cmd w _); [|discriminate]. rewrite bind_perform.
  destruct (run_shell_cmd w _); [|discriminate]. rewrite bind_perform.
  destruct (lib_bed_clip w _ _ _); [|discriminate]. rewrite bind_perform.
  destruct (rm_f w _); [|discriminate]. rewrite bind_perform.
  destruct (rm_f w _); [|discriminate].
  unfold ret. intros [= <- <-].
  exists ctl', (path_join out_dir bp), size,
         (ceil_div (size * 2) (1024 * 1024)).
  rewrite <- !app_assoc.
  split; [apply in_or_app; right; simpl; tauto|].
  split; [exact Eg|]. split; [exact (Hsize _ _ Eg)|].
  split; [apply in_or_app; right; simpl; tauto|].
  pose proof (ceil_div_bounds (size * 2) (1024 * 1024) ltac:(lia)) as B.
  split; [lia|]. intros ->. reflexivity.
Qed.

Lemma macs2_sort_buffer_witness :
  exists (ctl_used prefix : string) (size sort_mem_mb : Z),
    In (Run_shell_cmd (cmd0 "in/rep1.tagAlign.gz" ctl_used prefix "hs" "0.01" 200))
       (fst (run (macs2 (sample_world true) "in/rep1.tagAlign.gz" ""
                        "hg38.chrom.sizes" "hs" "0.01" 5 200 500000 0 false
                        "out"))) /\
    getsize (sample_world true) (prefix ++ "_peaks.narrowPeak") = Some size /\
    file_size size /\
    In (Run_shell_cmd
          (cmd1 sort_mem_mb prefix
                ("out/rep1.pval0.01.500K.narrowPeak.gz" ++ ".tmp")))
       (fst (run (macs2 (sample_world true) "in/rep1.tagAlign.gz" ""
                        "hg38.chrom.sizes" "hs" "0.01" 5 200 500000 0 false
                        "out"))) /\
    1048576 * (sort_mem_mb - 1) < 2 * size <= 1048576 * sort_mem_mb /\
    (size = 0 -> sort_mem_mb = 0).
Proof.
  apply (macs2_sort_buffer (sample_world true) "in/rep1.tagAlign.gz" ""
           "hg38.chrom.sizes" "hs" "0.01" 5 200 500000 0 false "out").
  - intros path size E. injection E as <-. split; [discriminate|reflexivity].
  - reflexivity.
Defined.

(** ** The length of the name with a control *)

(** X15: what the 200-character guard of line 74 bounds.  The base name
    with a control has at most 200 characters or is the sample base name
    followed by [_x_control]; so it has at most 200 characters whenever the
    sample base name has at most 190, and is longer than 200 only through
    the sample base name. *)
Theorem prefix_x_ctl_length (basename_ta basename_ctl_ta : string) :
  (String.length (prefix_x_ctl basename_ta basename_ctl_ta)
   <= Nat.max 200 (String.length basename_ta + 10))%nat /\
  ((200 < String.length (prefix_x_ctl basename_ta basename_ctl_ta))%nat ->
   prefix_x_ctl basename_ta basename_ctl_ta = basename_ta ++ "_x_control" /\
   (190 < String.length basename_ta)%nat).
Proof.
  unfold prefix_x_ctl.
  destruct (Nat.ltb_spec 200
              (String.length (basename_ta ++ "_x_" ++ basename_ctl_ta)))
    as [Hlong|Hshort].
  - rewrite string_app_length. cbn [String.length]. split; [lia|].
    intros H. split; [reflexivity|lia].
  - split; [lia|]. intros H. lia.
Qed.

Lemma prefix_x_ctl_length_witness :
  (String.length (prefix_x_ctl "rep1" "ctl1")
   <= Nat.max 200 (String.length "rep1" + 10))%nat.
Proof.
  exact (proj1 (prefix_x_ctl_length "rep1" "ctl1")).
Defined.
